(** * A shallow embedding of the ledger / consensus engine of [main.go]

    The Go program keeps one process-wide [blockchain] value.  Here every
    method is a function in a small state-and-panic monad over that value;
    the library routines the program calls ([crypto/sha256],
    [encoding/hex], [strconv.Itoa], [encoding/json]) are written out as
    executable functions so that every statement below can be evaluated on
    concrete blocks. *)

From Stdlib Require Import ZArith List String Ascii Bool Lia DecimalString.
Import ListNotations.

Local Open Scope string_scope.
Local Open Scope list_scope.
Local Open Scope Z_scope.

(** ** Go's [int]: a 64-bit two's complement integer carried in [Z] *)

Module GoInt.

Definition min_int : Z := - 2 ^ 63.
Definition max_int : Z := 2 ^ 63 - 1.

Definition in_range (x : Z) : Prop := min_int <= x <= max_int.

(** Reduction of a mathematical integer to the representable window. *)
Definition wrap (x : Z) : Z := (x + 2 ^ 63) mod 2 ^ 64 - 2 ^ 63.

(** The [+] of the language. *)
Definition add (x y : Z) : Z := wrap (x + y).

(** [len] of a slice. *)
Definition len {A : Type} (l : list A) : Z := Z.of_nat (List.length l).

(** [strconv.Itoa]: decimal digits, a leading minus sign for negatives. *)
Definition Itoa (x : Z) : string := NilZero.string_of_int (Z.to_int x).

End GoInt.

(** ** Bytes, hexadecimal text and SHA-256 *)

Module Bytes.

Definition of_string (s : string) : list Z :=
  List.map (fun c => Z.of_N (N_of_ascii c)) (list_ascii_of_string s).

Definition hexdigit (n : Z) : ascii :=
  if n <? 10 then ascii_of_N (Z.to_N (48 + n))
  else ascii_of_N (Z.to_N (87 + n)).

(** [hex.EncodeToString]: two lower-case digits per byte, high nibble first. *)
Fixpoint EncodeToString (bs : list Z) : string :=
  match bs with
  | [] => EmptyString
  | b :: rest =>
      String (hexdigit (Z.shiftr b 4))
        (String (hexdigit (Z.land b 15)) (EncodeToString rest))
  end.

End Bytes.

Module Sha256.

Definition mask32 : Z := 4294967295.

Definition add32 (x y : Z) : Z := Z.land (x + y) mask32.

Definition rotr (n x : Z) : Z :=
  Z.lor (Z.shiftr x n) (Z.land (Z.shiftl x (32 - n)) mask32).

Definition not32 (x : Z) : Z := Z.lxor x mask32.

Definition Ch (x y z : Z) : Z := Z.lxor (Z.land x y) (Z.land (not32 x) z).
Definition Maj (x y z : Z) : Z :=
  Z.lxor (Z.lxor (Z.land x y) (Z.land x z)) (Z.land y z).
Definition Sigma0 (x : Z) : Z := Z.lxor (Z.lxor (rotr 2 x) (rotr 13 x)) (rotr 22 x).
Definition Sigma1 (x : Z) : Z := Z.lxor (Z.lxor (rotr 6 x) (rotr 11 x)) (rotr 25 x).
Definition sigma0 (x : Z) : Z := Z.lxor (Z.lxor (rotr 7 x) (rotr 18 x)) (Z.shiftr x 3).
Definition sigma1 (x : Z) : Z := Z.lxor (Z.lxor (rotr 17 x) (rotr 19 x)) (Z.shiftr x 10).

(** The round constants and the initial state are not tabulated but
    derived as the standard defines them: the first 32 bits of the
    fractional parts of the cube roots (square roots) of the first 64
    (first 8) primes. *)
Definition is_prime (n : Z) : bool :=
  List.forallb (fun d => negb (n mod d =? 0))
    (List.map Z.of_nat (List.seq 2 (Z.to_nat n - 2))).

Definition primes : list Z :=
  List.filter is_prime (List.map Z.of_nat (List.seq 2 310)).

(** The integer cube root, one bit at a time from bit [bits - 1] down. *)
Fixpoint icbrt (bits : nat) (n r : Z) : Z :=
  match bits with
  | O => r
  | S b =>
      let c := r + 2 ^ Z.of_nat b in
      if c * c * c <=? n then icbrt b n c else icbrt b n r
  end.

Definition frac_cbrt (p : Z) : Z := Z.land (icbrt 40 (p * 2 ^ 96) 0) mask32.
Definition frac_sqrt (p : Z) : Z := Z.land (Z.sqrt (p * 2 ^ 64)) mask32.

Definition K : list Z := Eval vm_compute in List.map frac_cbrt primes.

(** Big-endian bytes of a value, [n] of them. *)
Fixpoint be_bytes (n : nat) (x : Z) : list Z :=
  match n with
  | O => []
  | S m => Z.land (Z.shiftr x (8 * Z.of_nat m)) 255 :: be_bytes m x
  end.

(** Message padding: a single 1 bit, zeros, the bit length on 64 bits. *)
Definition pad (msg : list Z) : list Z :=
  let l := Z.of_nat (List.length msg) in
  let k := Z.to_nat ((55 - l) mod 64) in
  msg ++ 128 :: List.repeat 0 k ++ be_bytes 8 (8 * l).

(** Sixteen big-endian words per 64-byte block. *)
Fixpoint words (n : nat) (bs : list Z) : list Z :=
  match n, bs with
  | S m, a :: b :: c :: d :: rest =>
      (((a * 256 + b) * 256 + c) * 256 + d) :: words m rest
  | _, _ => []
  end.

(** The message schedule, kept newest-first: [w] holds W[t-1], W[t-2], ... *)
Fixpoint schedule (n : nat) (w : list Z) : list Z :=
  match n with
  | O => w
  | S m =>
      let x := add32 (add32 (sigma1 (nth 1 w 0)) (nth 6 w 0))
                     (add32 (sigma0 (nth 14 w 0)) (nth 15 w 0)) in
      schedule m (x :: w)
  end.

Definition state : Type := (Z * Z * Z * Z * Z * Z * Z * Z)%type.

Definition round (s : state) (kw : Z * Z) : state :=
  let '(a, b, c, d, e, f, g, h) := s in
  let t1 := add32 (add32 (add32 h (Sigma1 e)) (add32 (Ch e f g) (fst kw))) (snd kw) in
  let t2 := add32 (Sigma0 a) (Maj a b c) in
  (add32 t1 t2, a, b, c, add32 d t1, e, f, g).

Definition compress (s : state) (block : list Z) : state :=
  let w := List.rev (schedule 48 (List.rev (words 16 block))) in
  let '(a, b, c, d, e, f, g, h) := List.fold_left round (List.combine K w) s in
  let '(a0, b0, c0, d0, e0, f0, g0, h0) := s in
  (add32 a0 a, add32 b0 b, add32 c0 c, add32 d0 d,
   add32 e0 e, add32 f0 f, add32 g0 g, add32 h0 h).

Fixpoint blocks (n : nat) (s : state) (bs : list Z) : state :=
  match n with
  | O => s
  | S m => blocks m (compress s (List.firstn 64 bs)) (List.skipn 64 bs)
  end.

Definition init_state : state :=
  Eval vm_compute in
    match List.map frac_sqrt primes with
    | a :: b :: c :: d :: e :: f :: g :: h :: _ => (a, b, c, d, e, f, g, h)
    | _ => (0, 0, 0, 0, 0, 0, 0, 0)
    end.

(** [sha256.Sum256]: the 32 bytes of the digest. *)
Definition Sum256 (msg : list Z) : list Z :=
  let p := pad msg in
  let '(a, b, c, d, e, f, g, h) :=
    blocks (Nat.div (List.length p) 64) init_state p in
  List.concat (List.map (be_bytes 4) [a; b; c; d; e; f; g; h]).

End Sha256.

(** ** [encoding/json]: the text [json.Marshal] writes for the program's structs *)

Module Json.

Definition RuneError : Z := 65533.

Definition cont (b : Z) : bool := (128 <=? b) && (b <=? 191).

(** [utf8.DecodeRuneInString] on the bytes at the head of [s]: the rune and
    the number of bytes it takes; an ill-formed sequence is [RuneError] of
    width 1. *)
Definition DecodeRune (s : list Z) : Z * nat :=
  match s with
  | [] => (RuneError, 0%nat)
  | s0 :: t0 =>
      if s0 <? 128 then (s0, 1%nat)
      else if (s0 <? 194) || (244 <? s0) then (RuneError, 1%nat)
      else
        let sz := if s0 <? 224 then 2 else if s0 <? 240 then 3 else 4 in
        let lo := if s0 =? 224 then 160 else if s0 =? 240 then 144 else 128 in
        let hi := if s0 =? 237 then 159 else if s0 =? 244 then 143 else 191 in
        if GoInt.len s <? sz then (RuneError, 1%nat)
        else
          match t0 with
          | [] => (RuneError, 1%nat)
          | s1 :: t1 =>
              if (s1 <? lo) || (hi <? s1) then (RuneError, 1%nat)
              else if sz <=? 2
              then (Z.lor (Z.shiftl (Z.land s0 31) 6) (Z.land s1 63), 2%nat)
              else
                match t1 with
                | [] => (RuneError, 1%nat)
                | s2 :: t2 =>
                    if negb (cont s2) then (RuneError, 1%nat)
                    else if sz <=? 3
                    then (Z.lor (Z.lor (Z.shiftl (Z.land s0 15) 12)
                                       (Z.shiftl (Z.land s1 63) 6))
                                (Z.land s2 63), 3%nat)
                    else
                      match t2 with
                      | [] => (RuneError, 1%nat)
                      | s3 :: _ =>
                          if negb (cont s3) then (RuneError, 1%nat)
                          else (Z.lor (Z.lor (Z.lor (Z.shiftl (Z.land s0 7) 18)
                                                    (Z.shiftl (Z.land s1 63) 12))
                                             (Z.shiftl (Z.land s2 63) 6))
                                      (Z.land s3 63), 4%nat)
                      end
                end
          end
  end.

(** [htmlSafeSet]: the ASCII bytes written as they are. *)
Definition htmlSafe (b : Z) : bool :=
  (32 <=? b) && (b <? 128)
  && negb ((b =? 34) || (b =? 38) || (b =? 60) || (b =? 62) || (b =? 92)).

(** The escape written for an ASCII byte outside [htmlSafeSet]: a short
    escape for the quote, the backslash and the five control characters
    that have one (backspace and form feed since Go 1.22; the six-character
    form before), the six-character hexadecimal form for the rest. *)
Definition escapeByte (b : Z) : list Z :=
  if (b =? 92) || (b =? 34) then [92; b]
  else if b =? 8 then Bytes.of_string "\b"
  else if b =? 12 then Bytes.of_string "\f"
  else if b =? 10 then Bytes.of_string "\n"
  else if b =? 13 then Bytes.of_string "\r"
  else if b =? 9 then Bytes.of_string "\t"
  else Bytes.of_string "\u00"
         ++ Bytes.of_string (Bytes.EncodeToString [b]).

(** The body of [appendString]'s loop.  [skip] counts the bytes of the rune
    being stepped over ([i += size]); they are copied when [copy] is set and
    dropped after the escape of a line or paragraph separator.  An
    ill-formed byte is written as the six characters backslash, u, f, f, f, d. *)
Fixpoint appendBody (skip : nat) (copy : bool) (src : list Z) : list Z :=
  match src with
  | [] => []
  | b :: rest =>
      match skip with
      | S k => (if copy then [b] else []) ++ appendBody k copy rest
      | O =>
          if b <? 128 then
            (if htmlSafe b then [b] else escapeByte b) ++ appendBody 0 true rest
          else
            let '(c, size) := DecodeRune src in
            if (c =? RuneError) && Nat.eqb size 1 then
              [92; 117; 102; 102; 102; 100] ++ appendBody 0 true rest
            else if (c =? 8232) || (c =? 8233) then
              Bytes.of_string "\u202"
                ++ [Z.of_N (N_of_ascii (Bytes.hexdigit (Z.land c 15)))]
                ++ appendBody (Nat.pred size) false rest
            else b :: appendBody (Nat.pred size) true rest
      end
  end.

(** A Go string as a JSON string, with [escapeHTML] on as [json.Marshal] has it. *)
Definition appendString (s : string) : list Z :=
  [34] ++ appendBody 0 true (Bytes.of_string s) ++ [34].

Definition appendInt (x : Z) : list Z := Bytes.of_string (GoInt.Itoa x).

(** An object key: the quoted name and a colon. *)
Definition key (name : string) : list Z := [34] ++ Bytes.of_string name ++ [34; 58].

End Json.

(** ** The data model of [main.go] *)

Record Transaction : Type := mkTransaction
  { Sender : string;
    Recipient : string;
    Amount : Z }.

Record Block : Type := mkBlock
  { Index : Z;
    Timestamp : Z;
    Transactions : Transaction;
    Proof : Z;
    PreviousHash : string }.

Record FullChain : Type := mkFullChain
  { FullChain_Chain : list Block;
    FullChain_Length : Z }.

Record BlockChain : Type := mkBlockChain
  { Chain : list Block;
    CurrentTransaction : Transaction;
    Nodes : list string }.

(** The zero values [Transaction{}] and [BlockChain{}]. *)
Definition Transaction_zero : Transaction := mkTransaction EmptyString EmptyString 0.
Definition BlockChain_zero : BlockChain := mkBlockChain [] Transaction_zero [].

(** [json.Marshal] of a [Transaction] (no tags: the field names are the keys)
    and of a [Block] (keys from the struct tags), fields in declaration order. *)
Definition Marshal_Transaction (t : Transaction) : list Z :=
  [123] ++ Json.key "Sender" ++ Json.appendString (Sender t)
  ++ [44] ++ Json.key "Recipient" ++ Json.appendString (Recipient t)
  ++ [44] ++ Json.key "Amount" ++ Json.appendInt (Amount t)
  ++ [125].

Definition Marshal_Block (b : Block) : list Z :=
  [123] ++ Json.key "index" ++ Json.appendInt (Index b)
  ++ [44] ++ Json.key "timestamp" ++ Json.appendInt (Timestamp b)
  ++ [44] ++ Json.key "transactions" ++ Marshal_Transaction (Transactions b)
  ++ [44] ++ Json.key "proof" ++ Json.appendInt (Proof b)
  ++ [44] ++ Json.key "previous_hash" ++ Json.appendString (PreviousHash b)
  ++ [125].

(** [Hash]: the hexadecimal SHA-256 digest of the block's JSON text. *)
Definition Hash (block : Block) : string :=
  Bytes.EncodeToString (Sha256.Sum256 (Marshal_Block block)).

(** ** Computations over the global [blockchain]

    A method either returns a value or panics; in both cases the global
    value is left as the assignments executed so far have made it. *)

Inductive panic : Type :=
  | IndexOutOfRange      (* a slice indexed outside its bounds *)
  | PeerFailure.         (* [panic(err)] on a peer request, status or body *)

Inductive outcome (A : Type) : Type :=
  | Returned (a : A) (s : BlockChain)
  | Panicked (p : panic) (s : BlockChain).

Arguments Returned {A} a s.
Arguments Panicked {A} p s.

Definition M (A : Type) : Type := BlockChain -> outcome A.

Definition ret {A : Type} (a : A) : M A := fun s => Returned a s.

Definition bind {A B : Type} (m : M A) (k : A -> M B) : M B :=
  fun s =>
    match m s with
    | Returned a s' => k a s'
    | Panicked p s' => Panicked p s'
    end.

Definition throw {A : Type} (p : panic) : M A := fun s => Panicked p s.

Definition get : M BlockChain := fun s => Returned s s.

Definition set_Chain (c : list Block) : M unit :=
  fun s => Returned tt (mkBlockChain c (CurrentTransaction s) (Nodes s)).

Definition set_CurrentTransaction (t : Transaction) : M unit :=
  fun s => Returned tt (mkBlockChain (Chain s) t (Nodes s)).

Declare Scope go_scope.
Delimit Scope go_scope with go.
Notation "x <- m ;; k" := (bind m (fun x => k))
  (at level 61, m at next level, right associativity) : go_scope.
Notation "m ;; k" := (bind m (fun _ => k))
  (at level 61, right associativity) : go_scope.
Local Open Scope go_scope.

(** [chain[i]] for a slice: a run-time panic outside the bounds. *)
Definition index {A : Type} (l : list A) (i : Z) : M A :=
  if (0 <=? i) && (i <? GoInt.len l)
  then match nth_error l (Z.to_nat i) with
       | Some a => ret a
       | None => throw IndexOutOfRange
       end
  else throw IndexOutOfRange.

Definition string_eqb (a b : string) : bool := String.eqb a b.

(** ** The methods of [BlockChain] *)

(** [NewBlock]; [now] is the value [time.Now().Unix()] yields at the call. *)
Definition NewBlock (now : Z) (PreviousHash : string) (proof : Z) : M Block :=
  pg <- (if negb (string_eqb PreviousHash EmptyString)
         then ret PreviousHash
         else bc <- get ;;
              last <- index (Chain bc) (GoInt.len (Chain bc) - 1) ;;
              ret (Hash last)) ;;
  bc <- get ;;
  let block :=
    {| Index := GoInt.add (GoInt.len (Chain bc)) 1;
       Timestamp := now;
       Transactions := CurrentTransaction bc;
       Proof := proof;
       PreviousHash := pg |} in
  set_CurrentTransaction Transaction_zero ;;
  bc' <- get ;;
  set_Chain (Chain bc' ++ [block]) ;;
  ret block.

(** [init]: the global is reset to its zero value, then the genesis block
    is made. *)
Definition init (now : Z) : M unit :=
  fun _ => (NewBlock now "1" 100 ;; ret tt) BlockChain_zero.

Definition LastBlock : M Block :=
  bc <- get ;;
  index (Chain bc) (GoInt.len (Chain bc) - 1).

Definition NewTransaction (sender recipient : string) (amount : Z) : M Z :=
  set_CurrentTransaction (mkTransaction sender recipient amount) ;;
  last <- LastBlock ;;
  ret (GoInt.add (Index last) 1).

(** [validProof]: the first four hexadecimal characters of the digest of the
    two decimal texts put together are zeros. *)
Definition validProof (lastProof proof : Z) : bool :=
  let guess := Bytes.of_string (GoInt.Itoa lastProof ++ GoInt.Itoa proof)%string in
  let sha256s := Sha256.Sum256 guess in
  let guessHash := Bytes.EncodeToString sha256s in
  string_eqb (String.substring 0 4 guessHash) "0000".

(** [ProofOfWork]: the loop runs until [validProof] holds; [fuel] bounds the
    number of iterations looked at, [None] says the bound was reached. *)
Fixpoint ProofOfWork_loop (fuel : nat) (lastProof proof : Z) : option Z :=
  match fuel with
  | O => None
  | S fuel' =>
      if Bool.eqb (validProof lastProof proof) false
      then ProofOfWork_loop fuel' lastProof (GoInt.add proof 1)
      else Some proof
  end.

Definition ProofOfWork (fuel : nat) (lastProof : Z) : option Z :=
  ProofOfWork_loop fuel lastProof 0.

(** [validChain]: the loop over [currentIndex], by recursion on the blocks
    still to be visited. *)
Fixpoint validChain_loop (lastBlock : Block) (rest : list Block) : bool :=
  match rest with
  | [] => true
  | block :: rest' =>
      if negb (string_eqb (PreviousHash block) (Hash lastBlock))
      then false
      else validChain_loop block rest'
  end.

Definition validChain (chain : list Block) : M bool :=
  lastBlock <- index chain 0 ;;
  ret (validChain_loop lastBlock (List.skipn 1 chain)).

(** What [http.Get] and the JSON decoder give for one peer. *)
Inductive Response : Type :=
  | GetError                                   (* [err != nil] *)
  | Got (StatusCode : Z) (Body : option FullChain).  (* [None]: undecodable *)

(** One turn of the [range neighbors] loop on the locals [maxLength] and
    [newChain]. *)
Definition resolve_step (r : Response) (acc : Z * list Block) : M (Z * list Block) :=
  let '(maxLength, newChain) := acc in
  match r with
  | GetError => throw PeerFailure
  | Got code body =>
      if negb (code =? 200) then throw PeerFailure
      else match body with
           | None => throw PeerFailure
           | Some fullChain =>
               let length := FullChain_Length fullChain in
               let chain := FullChain_Chain fullChain in
               if maxLength <? length
               then ok <- validChain chain ;;
                    if ok then ret (length, chain) else ret (maxLength, newChain)
               else ret (maxLength, newChain)
           end
  end.

Fixpoint resolve_loop (rs : list Response) (acc : Z * list Block) : M (Z * list Block) :=
  match rs with
  | [] => ret acc
  | r :: rs' => acc' <- resolve_step r acc ;; resolve_loop rs' acc'
  end.

(** [resolveConflicts]; [http_Get] is the network as seen during the call. *)
Definition resolveConflicts (http_Get : string -> Response) : M bool :=
  bc <- get ;;
  let neighbors := Nodes bc in
  let maxLength := GoInt.len (Chain bc) in
  acc <- resolve_loop
           (List.map (fun node => http_Get (node ++ "/chain")%string) neighbors)
           (maxLength, []) ;;
  let newChain := snd acc in
  if negb (GoInt.len newChain =? 0)
  then set_Chain newChain ;; ret true
  else ret false.

(** ** The statements of the specification, as definitions *)

Definition Block_zero : Block := mkBlock 0 0 Transaction_zero 0 EmptyString.

(** The hash-link rule in the specification's words: every block after the
    first carries the hash of the block before it. *)
Definition is_valid_chain_spec (chain : list Block) : bool :=
  List.forallb
    (fun link => string_eqb (PreviousHash (snd link)) (Hash (fst link)))
    (List.combine chain (List.skipn 1 chain)).

(** The chain with the block at position [i] replaced by [b]. *)
Definition replace_at (i : nat) (b : Block) (chain : list Block) : list Block :=
  List.firstn i chain ++ b :: List.skipn (S i) chain.

(** The explicit previous hash is empty, or is the hash of the last block. *)
Definition derived_hash (bc : BlockChain) (ph : string) : Prop :=
  ph = EmptyString \/ exists pre last, Chain bc = pre ++ [last] /\ ph = Hash last.

Definition any_hash (bc : BlockChain) (ph : string) : Prop := True.

(** The ledgers obtained from initialisation by [NewBlock] and
    [NewTransaction] calls, the explicit previous hashes being taken among
    those [allowed]. *)
Inductive produced (allowed : BlockChain -> string -> Prop) : BlockChain -> Prop :=
  | produced_init (now : Z) (s0 bc : BlockChain) :
      init now s0 = Returned tt bc ->
      produced allowed bc
  | produced_block (bc : BlockChain) (now : Z) (ph : string) (proof : Z)
      (blk : Block) (bc' : BlockChain) :
      produced allowed bc ->
      allowed bc ph ->
      NewBlock now ph proof bc = Returned blk bc' ->
      produced allowed bc'
  | produced_transfer (bc : BlockChain) (sender recipient : string) (amount n : Z)
      (bc' : BlockChain) :
      produced allowed bc ->
      NewTransaction sender recipient amount bc = Returned n bc' ->
      produced allowed bc'.

(** Consensus in the specification's words: the running best length and the
    best chain, if any was taken. *)
Definition adopt (best : Z * option (list Block)) (peer : FullChain)
    : Z * option (list Block) :=
  if (fst best <? FullChain_Length peer) && is_valid_chain_spec (FullChain_Chain peer)
  then (FullChain_Length peer, Some (FullChain_Chain peer))
  else best.

Definition scan_spec (local : list Block) (peers : list FullChain)
    : Z * option (list Block) :=
  List.fold_left adopt peers (GoInt.len local, None).

Definition resolve_spec (local : list Block) (peers : list FullChain)
    : bool * list Block :=
  match snd (scan_spec local peers) with
  | Some best_chain => (true, best_chain)
  | None => (false, local)
  end.

(** The local [newChain] that stands for a best chain. *)
Definition chain_of (best_chain : option (list Block)) : list Block :=
  match best_chain with Some c => c | None => [] end.

(** The responses of peers that all answer 200 with a decodable body. *)
Definition answers (peers : list FullChain) : list Response :=
  List.map (fun p => Got 200 (Some p)) peers.

(** The requests [resolveConflicts] makes, in order. *)
Definition requests (http_Get : string -> Response) (bc : BlockChain) : list Response :=
  List.map (fun node => http_Get (node ++ "/chain")%string) (Nodes bc).

(** A ledger made by one [NewBlock] call with an explicit previous hash
    that is not a digest. *)
Definition genesis_at_0 : Block := mkBlock 1 0 Transaction_zero 100 "1".

Definition forged_ledger : BlockChain :=
  {| Chain := [genesis_at_0; mkBlock 2 1 Transaction_zero 7 "abc"];
     CurrentTransaction := Transaction_zero;
     Nodes := [] |}.

(** Two strings of one byte each, neither of them well-formed UTF-8. *)
Definition byte_ff : string := String (ascii_of_nat 255) EmptyString.
Definition byte_fe : string := String (ascii_of_nat 254) EmptyString.

Definition sent_by (sender : string) : Block :=
  mkBlock 1 0 (mkTransaction sender "bob" 5) 100 "1".

Definition chain_ff : list Block :=
  [sent_by byte_ff; mkBlock 2 1 Transaction_zero 7 (Hash (sent_by byte_ff))].

(** The proof-of-work predicate in the specification's words: the first
    four characters of the hexadecimal digest exist and are all zeros. *)
Definition is_valid_spec (reference candidate : Z) : bool :=
  let text := (GoInt.Itoa reference ++ GoInt.Itoa candidate)%string in
  let digest := Bytes.EncodeToString (Sha256.Sum256 (Bytes.of_string text)) in
  let chars := list_ascii_of_string digest in
  (4 <=? List.length chars)%nat
  && List.forallb (fun c => Ascii.eqb c "0"%char) (List.firstn 4 chars).

(** A small network: the local node holds the genesis block only; peer [a]
    reports 3 blocks and sends two linked ones, peer [b] reports 2 blocks
    and sends none. *)
Definition local_1 : BlockChain :=
  {| Chain := [genesis_at_0];
     CurrentTransaction := Transaction_zero;
     Nodes := ["a"; "b"] |}.

Definition chain_a : list Block :=
  [genesis_at_0; mkBlock 2 1 Transaction_zero 7 (Hash genesis_at_0)].

Definition net_ab (url : string) : Response :=
  if string_eqb url "a/chain" then Got 200 (Some (mkFullChain chain_a 3))
  else if string_eqb url "b/chain" then Got 200 (Some (mkFullChain [] 2))
  else GetError.

(** A node holding three blocks and one peer that reports five blocks but
    sends a single one. *)
Definition local_3 : BlockChain :=
  {| Chain := chain_a ++ [mkBlock 3 2 Transaction_zero 9
                            (Hash (mkBlock 2 1 Transaction_zero 7 (Hash genesis_at_0)))];
     CurrentTransaction := Transaction_zero;
     Nodes := ["a"] |}.

Definition net_short (url : string) : Response :=
  if string_eqb url "a/chain" then Got 200 (Some (mkFullChain [genesis_at_0] 5))
  else GetError.

(** Two peers that both send [chain_a]; the first reports the local length,
    the second reports more. *)
Definition net_tie (url : string) : Response :=
  if string_eqb url "a/chain" then Got 200 (Some (mkFullChain chain_a 1))
  else if string_eqb url "b/chain" then Got 200 (Some (mkFullChain chain_a 2))
  else GetError.

(** The block [NewBlock] builds in state [bc]. *)
Definition made_block (bc : BlockChain) (now : Z) (PreviousHash : string) (proof : Z)
    (dflt : Block) : Block :=
  {| Index := GoInt.add (GoInt.len (Chain bc)) 1;
     Timestamp := now;
     Transactions := CurrentTransaction bc;
     Proof := proof;
     PreviousHash :=
       if string_eqb PreviousHash EmptyString
       then Hash (List.last (Chain bc) dflt)
       else PreviousHash |}.

(** The ledger after one block was mined on the genesis block. *)
Definition mined_ledger : BlockChain :=
  {| Chain := chain_a; CurrentTransaction := Transaction_zero; Nodes := [] |}.

(** A ledger with a transfer pending. *)
Definition pending_ledger : BlockChain :=
  {| Chain := [genesis_at_0];
     CurrentTransaction := mkTransaction "alice" "bob" 5;
     Nodes := [] |}.

(** ** The digest on known inputs *)

(** The digests of the standard test messages. *)
Example Sum256_abc :
  Bytes.EncodeToString (Sha256.Sum256 (Bytes.of_string "abc"))
  = "ba7816bf8f01cfea414140de5dae2223b00361a396177a9cb410ff61f20015ad".
Proof. vm_compute. reflexivity. Qed.

Example Sum256_empty :
  Bytes.EncodeToString (Sha256.Sum256 [])
  = "e3b0c44298fc1c149afbf4c8996fb92427ae41e4649b934ca495991b7852b855".
Proof. vm_compute. reflexivity. Qed.

(** ** The peer registry and the HTTP handlers *)

Definition set_Nodes (n : list string) : M unit :=
  fun s => Returned tt (mkBlockChain (Chain s) (CurrentTransaction s) n).

(** A [map[string]bool]: the bindings made so far, newest first; a key that
    was never bound reads as [false]. *)
Definition gomap : Type := list (string * bool).

Fixpoint map_get (m : gomap) (k : string) : bool :=
  match m with
  | [] => false
  | (k', v) :: rest => if string_eqb k' k then v else map_get rest k
  end.

Definition map_set (m : gomap) (k : string) (v : bool) : gomap := (k, v) :: m.

(** The [range blockchain.Nodes] loop of [RegisterNode] on its locals
    [fix] and [one]. *)
Fixpoint register_loop (nodes : list string) (acc : gomap * list string)
    : gomap * list string :=
  match nodes with
  | [] => acc
  | a :: rest =>
      let '(fix_, one) := acc in
      if negb (map_get fix_ a)
      then register_loop rest (map_set fix_ a true, one ++ [a])
      else register_loop rest (fix_, one)
  end.

(** The method [RegisterNode]. *)
Definition RegisterNode (address : string) : M unit :=
  bc <- get ;;
  set_Nodes (Nodes bc ++ [address]) ;;
  bc' <- get ;;
  let one := snd (register_loop (Nodes bc') ([], [])) in
  set_Nodes one.

(** The request bodies [Post2] and [Post]. *)
Record Post2 : Type := mkPost2
  { Post2_Nodes : list string }.

Record Post : Type := mkPost
  { Post_Sender : string;
    Post_Recipient : string;
    Post_Amount : Z }.

(** What a handler hands to [e.JSON]: the status and the value written. *)
Inductive Body : Type :=
  | Text (s : string)
  | Response2 (Message : string) (TotalNode : list string)
  | Replaced (Message : string) (NewChain : list Block)
  | Confirmed (Message : string) (Chain_ : list Block)
  | Mined (Message : string) (Index_ : Z) (Transactions_ : Transaction)
      (Proof_ : Z) (PreviousHash_ : string)
  | Chain_of (fc : FullChain).

Definition Reply : Type := (Z * Body)%type.

Definition StatusOK : Z := 200.
Definition StatusCreated : Z := 201.
Definition StatusBadRequest : Z := 400.

(** The handler [RegisterNode]; [nodes] is [None] when [e.Bind] fails. *)
Fixpoint register_each (nodes : list string) : M unit :=
  match nodes with
  | [] => ret tt
  | node :: rest => RegisterNode node ;; register_each rest
  end.

Definition RegisterNode_handler (nodes : option Post2) : M Reply :=
  match nodes with
  | None => ret (StatusBadRequest, Text "Status Bad Request.")
  | Some ns =>
      register_each (Post2_Nodes ns) ;;
      bc <- get ;;
      ret (StatusCreated, Response2 "新しいノードが追加されました" (Nodes bc))
  end.

(** The handler [Consensus]. *)
Definition Consensus (http_Get : string -> Response) : M Reply :=
  replaced <- resolveConflicts http_Get ;;
  bc <- get ;;
  if replaced
  then ret (StatusOK, Replaced "チェーンが置き換えられました" (Chain bc))
  else ret (StatusOK, Confirmed "チェーンが確認されました" (Chain bc)).

(** The handler [NewTransactionPost]; [post] is [None] when [e.Bind] fails. *)
Definition NewTransactionPost (post : option Post) : M Reply :=
  match post with
  | None => ret (StatusBadRequest, Text "Status Bad Request.")
  | Some p =>
      index_ <- NewTransaction (Post_Sender p) (Post_Recipient p) (Post_Amount p) ;;
      ret (StatusCreated,
           Text ("トランザクションはブロック" ++ GoInt.Itoa index_
                 ++ "に追加されました")%string)
  end.

(** The handler [Mine]; [nodeIdentifire] is the global of that name, [now]
    the clock at the [NewBlock] call, and [fuel] bounds the proof-of-work
    search: when the bound is reached the handler has not answered yet
    ([None]) and has not touched the ledger. *)
Definition Mine (fuel : nat) (now : Z) (nodeIdentifire : string) : M (option Reply) :=
  lastBlock <- LastBlock ;;
  let lastProof := Proof lastBlock in
  match ProofOfWork fuel lastProof with
  | None => ret None
  | Some proof =>
      NewTransaction "0" nodeIdentifire 1 ;;
      block <- NewBlock now EmptyString proof ;;
      ret (Some (StatusCreated,
                 Mined "新しいブロックを採掘しました"
                   (Index block) (Transactions block) (Proof block)
                   (PreviousHash block)))
  end.

(** The handler [FullChainGET]. *)
Definition FullChainGET : M Reply :=
  bc <- get ;;
  ret (StatusOK, Chain_of (mkFullChain (Chain bc) (GoInt.len (Chain bc)))).

(** The reward [Mine] credits to the node. *)
Definition reward (nodeIdentifire : string) : Transaction :=
  mkTransaction "0" nodeIdentifire 1.


(** A peer answer as [FullChainGET] of a node holding [chain] gives it. *)
Definition honest (p : FullChain) : Prop :=
  exists s : BlockChain,
    FullChainGET s = Returned (StatusOK, Chain_of p) s /\ Chain s <> [].

(** A ledger whose last block has a proof with a short search after it. *)
Definition quick_ledger : BlockChain :=
  {| Chain := [genesis_at_0;
               mkBlock 2 1 Transaction_zero (-105) (Hash genesis_at_0)];
     CurrentTransaction := mkTransaction "alice" "bob" 5;
     Nodes := ["a"] |}.

(** The map [fix] says true of exactly the addresses kept in [one]. *)
Definition synced (acc : gomap * list string) : Prop :=
  forall a : string, map_get (fst acc) a = true <-> In a (snd acc).

(** The characters [hex.EncodeToString] writes. *)
Definition is_lower_hex (c : ascii) : bool :=
  List.existsb (Ascii.eqb c) (list_ascii_of_string "0123456789abcdef").

(** A byte value. *)
Definition is_byte (b : Z) : Prop := 0 <= b < 256.


(** A peer request that [resolveConflicts] answers with [panic(err)]: no
    response, a status other than 200, or a body that does not decode. *)
Definition failed (r : Response) : Prop :=
  match r with
  | GetError => True
  | Got code body => code <> 200 \/ body = None
  end.

(** ** Basic facts about slices and the monad *)

(** Runs the plumbing of the monad in the goal. *)
Ltac run_monad :=
  unfold bind, ret, get, throw, set_Chain, set_CurrentTransaction.

Section Slices.

Context {A : Type}.

Lemma len_app (l1 l2 : list A) : GoInt.len (l1 ++ l2) = GoInt.len l1 + GoInt.len l2.
Proof. unfold GoInt.len. rewrite length_app. lia. Qed.

Lemma len_nonneg (l : list A) : 0 <= GoInt.len l.
Proof. unfold GoInt.len. lia. Qed.

Lemma len_zero_iff (l : list A) : GoInt.len l = 0 <-> l = [].
Proof.
  unfold GoInt.len. destruct l; simpl; split; intro H;
    solve [reflexivity | discriminate | lia].
Qed.

Lemma index_ok (l : list A) (i : nat) (a : A) (s : BlockChain) :
  nth_error l i = Some a -> index l (Z.of_nat i) s = Returned a s.
Proof.
  intro H. unfold index, GoInt.len.
  assert (Hi : (i < List.length l)%nat) by (apply nth_error_Some; congruence).
  rewrite Nat2Z.id, H.
  destruct (0 <=? Z.of_nat i) eqn:E1; [ | apply Z.leb_gt in E1; lia ].
  destruct (Z.of_nat i <? Z.of_nat (List.length l)) eqn:E2;
    [ reflexivity | apply Z.ltb_ge in E2; lia ].
Qed.

Lemma index_snoc (l : list A) (a : A) (s : BlockChain) :
  index (l ++ [a]) (GoInt.len (l ++ [a]) - 1) s = Returned a s.
Proof.
  replace (GoInt.len (l ++ [a]) - 1) with (Z.of_nat (List.length l)).
  - apply index_ok. rewrite nth_error_app2 by lia. rewrite Nat.sub_diag. reflexivity.
  - unfold GoInt.len. rewrite length_app. simpl. lia.
Qed.

Lemma index_last (l : list A) (d : A) (s : BlockChain) :
  l <> [] -> index l (GoInt.len l - 1) s = Returned (List.last l d) s.
Proof.
  intro H. destruct (exists_last H) as [l' [a ->]].
  rewrite index_snoc, last_last. reflexivity.
Qed.

Lemma index_nil (i : Z) (s : BlockChain) :
  index (@nil A) i s = Panicked IndexOutOfRange s.
Proof.
  unfold index, GoInt.len. simpl.
  destruct (0 <=? i) eqn:E1; destruct (i <? 0) eqn:E2; simpl; try reflexivity.
  apply Z.leb_le in E1. apply Z.ltb_lt in E2. lia.
Qed.

Lemma index_head (a : A) (l : list A) (s : BlockChain) :
  index (a :: l) 0 s = Returned a s.
Proof. apply (index_ok (a :: l) 0). reflexivity. Qed.

End Slices.

Lemma wrap_small (x : Z) : GoInt.in_range x -> GoInt.wrap x = x.
Proof.
  unfold GoInt.in_range, GoInt.wrap, GoInt.min_int, GoInt.max_int. intro H.
  rewrite Z.mod_small; lia.
Qed.

Lemma add_small (x y : Z) : GoInt.in_range (x + y) -> GoInt.add x y = x + y.
Proof. apply wrap_small. Qed.

Lemma string_eqb_eq (a b : string) : string_eqb a b = true <-> a = b.
Proof. apply String.eqb_eq. Qed.

Lemma string_eqb_neq (a b : string) : string_eqb a b = false <-> a <> b.
Proof. apply String.eqb_neq. Qed.

Lemma NewBlock_returns (now : Z) (ph : string) (proof : Z) (bc : BlockChain) (d : Block) :
  Chain bc <> [] \/ ph <> EmptyString ->
  NewBlock now ph proof bc =
    Returned (made_block bc now ph proof d)
      {| Chain := Chain bc ++ [made_block bc now ph proof d];
         CurrentTransaction := Transaction_zero;
         Nodes := Nodes bc |}.
Proof.
  intro H. unfold NewBlock, made_block. run_monad.
  destruct (string_eqb ph EmptyString) eqn:E; simpl.
  - destruct H as [H | H].
    + rewrite (index_last _ d _ H). reflexivity.
    + apply string_eqb_eq in E. contradiction.
  - reflexivity.
Qed.

(** ** Genesis *)

(** C7.  A freshly initialised ledger holds exactly one block, with index 1,
    previous hash the one-character string 1 and proof 100; the pending
    transfer is the empty record (and no peer is known). *)
Theorem init_genesis (now : Z) (s0 : BlockChain) :
  exists g : Block,
    init now s0 =
      Returned tt {| Chain := [g]; CurrentTransaction := Transaction_zero; Nodes := [] |}
    /\ Index g = 1
    /\ PreviousHash g = "1"
    /\ Proof g = 100
    /\ Timestamp g = now
    /\ Transactions g = Transaction_zero.
Proof.
  eexists. split; [reflexivity | ]. repeat split.
Qed.

(** ** Block creation *)

(** C6.  On a ledger whose chain is not empty, [NewBlock] returns the block
    made of the explicit previous hash when that is not empty and of the
    hash of the last block otherwise, of index [len(chain) + 1], of the
    pending transfer and of the given proof; that block becomes the last
    element of the chain, the pending transfer is reset to the empty
    record, the chain is one longer and its earlier blocks are untouched. *)
Theorem NewBlock_spec (now : Z) (ph : string) (proof : Z) (bc : BlockChain) (d : Block) :
  Chain bc <> [] ->
  exists blk : Block,
    NewBlock now ph proof bc =
      Returned blk {| Chain := Chain bc ++ [blk];
                      CurrentTransaction := Transaction_zero;
                      Nodes := Nodes bc |}
    /\ PreviousHash blk = (if string_eqb ph EmptyString
                           then Hash (List.last (Chain bc) d) else ph)
    /\ Index blk = GoInt.add (GoInt.len (Chain bc)) 1
    /\ (GoInt.len (Chain bc) < GoInt.max_int -> Index blk = GoInt.len (Chain bc) + 1)
    /\ Timestamp blk = now
    /\ Transactions blk = CurrentTransaction bc
    /\ Proof blk = proof
    /\ List.last (Chain bc ++ [blk]) d = blk
    /\ List.length (Chain bc ++ [blk]) = S (List.length (Chain bc))
    /\ (forall i : nat, (i < List.length (Chain bc))%nat ->
          nth_error (Chain bc ++ [blk]) i = nth_error (Chain bc) i).
Proof.
  intro Hne. exists (made_block bc now ph proof d).
  split; [apply NewBlock_returns; left; exact Hne | ].
  repeat split; try reflexivity.
  - intro Hlt. simpl. apply add_small.
    pose proof (len_nonneg (Chain bc)).
    unfold GoInt.in_range, GoInt.min_int, GoInt.max_int in *. lia.
  - apply last_last.
  - rewrite length_app. simpl. lia.
  - intros i Hi. apply nth_error_app1. exact Hi.
Qed.

Lemma NewBlock_spec_witness :
  exists blk : Block,
    NewBlock 1 EmptyString 7 pending_ledger =
      Returned blk {| Chain := Chain pending_ledger ++ [blk];
                      CurrentTransaction := Transaction_zero;
                      Nodes := Nodes pending_ledger |}
    /\ Transactions blk = CurrentTransaction pending_ledger
    /\ Proof blk = 7.
Proof.
  destruct (NewBlock_spec 1 EmptyString 7 pending_ledger Block_zero)
    as [blk [Hret [_ [_ [_ [_ [Htx [Hproof _]]]]]]]].
  - discriminate.
  - exists blk. split; [exact Hret | ]. split; [exact Htx | exact Hproof].
Defined.

(** The block made on [pending_ledger], computed. *)
Example NewBlock_on_pending_ledger :
  NewBlock 1 EmptyString 7 pending_ledger =
    Returned
      (mkBlock 2 1 (mkTransaction "alice" "bob" 5) 7
         "a1a8e4854c1d8003f06b76bb6b91f87443baf583b35782c750f240379b058323")
      {| Chain := [genesis_at_0;
                   mkBlock 2 1 (mkTransaction "alice" "bob" 5) 7
                     "a1a8e4854c1d8003f06b76bb6b91f87443baf583b35782c750f240379b058323"];
         CurrentTransaction := Transaction_zero;
         Nodes := [] |}.
Proof. vm_compute. reflexivity. Qed.

(** ** The validity check *)

Lemma validChain_cons (b : Block) (rest : list Block) (s : BlockChain) :
  validChain (b :: rest) s = Returned (validChain_loop b rest) s.
Proof. unfold validChain, bind. rewrite index_head. reflexivity. Qed.

Lemma validChain_nil (s : BlockChain) :
  validChain [] s = Panicked IndexOutOfRange s.
Proof. unfold validChain, bind. rewrite index_nil. reflexivity. Qed.

Lemma validChain_loop_spec (b : Block) (rest : list Block) :
  validChain_loop b rest = is_valid_chain_spec (b :: rest).
Proof.
  revert b. induction rest as [ | x rest IH]; intro b.
  - reflexivity.
  - unfold is_valid_chain_spec in *. simpl. specialize (IH x). simpl in IH.
    rewrite IH. destruct (string_eqb (PreviousHash x) (Hash b)); reflexivity.
Qed.

Lemma validChain_returns (chain : list Block) (s : BlockChain) :
  chain <> [] -> validChain chain s = Returned (is_valid_chain_spec chain) s.
Proof.
  destruct chain as [ | b rest]; [congruence | intros _].
  rewrite validChain_cons, validChain_loop_spec. reflexivity.
Qed.

(** Every link holds exactly when the loop answers true. *)
Lemma validChain_loop_true (b : Block) (rest : list Block) (d : Block) :
  validChain_loop b rest = true <->
  forall i : nat, (i < List.length rest)%nat ->
    PreviousHash (nth i rest d) = Hash (nth i (b :: rest) d).
Proof.
  revert b. induction rest as [ | x rest IH]; intro b; simpl.
  - split; [intros _ i Hi; lia | reflexivity].
  - destruct (string_eqb (PreviousHash x) (Hash b)) eqn:E; simpl.
    + apply string_eqb_eq in E. rewrite IH. split.
      * intros H [ | i] Hi; [exact E | apply H; lia].
      * intros H i Hi. apply (H (S i)). lia.
    + apply string_eqb_neq in E. split; [discriminate | ].
      intro H. exfalso. apply E. apply (H 0%nat). lia.
Qed.

(** A false answer comes from a first link that does not hold. *)
Lemma validChain_loop_false (b : Block) (rest : list Block) (d : Block) :
  validChain_loop b rest = false <->
  exists i : nat, (i < List.length rest)%nat
    /\ PreviousHash (nth i rest d) <> Hash (nth i (b :: rest) d)
    /\ forall j : nat, (j < i)%nat ->
         PreviousHash (nth j rest d) = Hash (nth j (b :: rest) d).
Proof.
  revert b. induction rest as [ | x rest IH]; intro b; simpl.
  - split; [discriminate | intros [i [Hi _]]; lia].
  - destruct (string_eqb (PreviousHash x) (Hash b)) eqn:E; simpl.
    + apply string_eqb_eq in E. rewrite IH. split.
      * intros [i [Hi [Hbad Hok]]]. exists (S i). split; [lia | ]. split; [exact Hbad | ].
        intros [ | j] Hj; [exact E | apply Hok; lia].
      * intros [[ | i] [Hi [Hbad Hok]]]; [contradiction | ].
        exists i. split; [lia | ]. split; [exact Hbad | ].
        intros j Hj. apply (Hok (S j)). lia.
    + apply string_eqb_neq in E. split; [intros _ | reflexivity].
      exists 0%nat. split; [lia | ]. split; [exact E | intros j Hj; lia].
Qed.

Lemma is_valid_chain_spec_true (chain : list Block) (d : Block) :
  is_valid_chain_spec chain = true <->
  forall i : nat, (S i < List.length chain)%nat ->
    PreviousHash (nth (S i) chain d) = Hash (nth i chain d).
Proof.
  destruct chain as [ | b rest].
  - split; [intros _ i Hi; simpl in Hi; lia | reflexivity].
  - rewrite <- validChain_loop_spec, (validChain_loop_true b rest d). simpl.
    split; intros H i Hi; apply H; lia.
Qed.

Lemma is_valid_chain_spec_false (chain : list Block) (d : Block) :
  is_valid_chain_spec chain = false <->
  exists i : nat, (S i < List.length chain)%nat
    /\ PreviousHash (nth (S i) chain d) <> Hash (nth i chain d)
    /\ forall j : nat, (j < i)%nat ->
         PreviousHash (nth (S j) chain d) = Hash (nth j chain d).
Proof.
  destruct chain as [ | b rest].
  - split; [discriminate | intros [i [Hi _]]; simpl in Hi; lia].
  - rewrite <- validChain_loop_spec, (validChain_loop_false b rest d). simpl.
    split; intros [i [Hi H]]; exists i; (split; [lia | exact H]).
Qed.

Lemma is_valid_chain_spec_snoc (chain : list Block) (last blk : Block) :
  is_valid_chain_spec ((chain ++ [last]) ++ [blk]) =
  is_valid_chain_spec (chain ++ [last]) && string_eqb (PreviousHash blk) (Hash last).
Proof.
  induction chain as [ | b rest IH].
  - unfold is_valid_chain_spec. simpl. rewrite andb_true_r. reflexivity.
  - destruct rest as [ | x rest'].
    + unfold is_valid_chain_spec. simpl. rewrite !andb_true_r. reflexivity.
    + unfold is_valid_chain_spec in *. simpl in *. rewrite IH.
      rewrite andb_assoc. reflexivity.
Qed.

(** C3.  On a candidate chain that is not empty [validChain] returns, leaves
    the ledger as it was, and answers true exactly when every block from
    index 1 on carries the hash of the block before it in the candidate;
    a false answer comes from a first link that fails; a chain of one block
    is valid; and the proof carried by a block is never checked: a second
    block is accepted whatever its proof is. *)
Theorem validChain_spec (chain : list Block) (s : BlockChain) (d : Block) :
  chain <> [] ->
  validChain chain s = Returned (is_valid_chain_spec chain) s
  /\ (is_valid_chain_spec chain = true <->
      forall i : nat, (S i < List.length chain)%nat ->
        PreviousHash (nth (S i) chain d) = Hash (nth i chain d))
  /\ (is_valid_chain_spec chain = false <->
      exists i : nat, (S i < List.length chain)%nat
        /\ PreviousHash (nth (S i) chain d) <> Hash (nth i chain d)
        /\ forall j : nat, (j < i)%nat ->
             PreviousHash (nth (S j) chain d) = Hash (nth j chain d))
  /\ (List.length chain = 1%nat -> is_valid_chain_spec chain = true)
  /\ (forall (b0 : Block) (idx now : Z) (tx : Transaction) (proof : Z),
        validChain [b0; mkBlock idx now tx proof (Hash b0)] s = Returned true s).
Proof.
  intro Hne. split; [apply validChain_returns; exact Hne | ].
  split; [apply is_valid_chain_spec_true | ].
  split; [apply is_valid_chain_spec_false | ].
  split.
  - intro H1. destruct chain as [ | b [ | x rest]]; simpl in H1; try lia. reflexivity.
  - intros b0 idx now tx proof. rewrite validChain_cons. simpl.
    replace (string_eqb (Hash b0) (Hash b0)) with true
      by (symmetry; apply string_eqb_eq; reflexivity).
    reflexivity.
Qed.

Lemma validChain_spec_witness :
  validChain chain_a BlockChain_zero = Returned true BlockChain_zero.
Proof.
  refine (proj1 (validChain_spec chain_a BlockChain_zero Block_zero _)).
  discriminate.
Defined.

(** The check does not look at proofs: the second block of [chain_a]
    carries a proof that [validProof] rejects, and the chain is accepted. *)
Example validChain_ignores_proof :
  validProof (Proof genesis_at_0) 7 = false
  /\ validChain chain_a BlockChain_zero = Returned true BlockChain_zero.
Proof. split; vm_compute; reflexivity. Qed.

(** ** The hash-link invariant *)

Lemma NewTransaction_returns (sender recipient : string) (amount : Z)
    (bc : BlockChain) (d : Block) :
  Chain bc <> [] ->
  NewTransaction sender recipient amount bc =
    Returned (GoInt.add (Index (List.last (Chain bc) d)) 1)
      {| Chain := Chain bc;
         CurrentTransaction := mkTransaction sender recipient amount;
         Nodes := Nodes bc |}.
Proof.
  intro Hne. unfold NewTransaction, LastBlock. run_monad.
  simpl. rewrite (index_last _ d _ Hne). reflexivity.
Qed.

Lemma NewTransaction_panics (sender recipient : string) (amount : Z) (bc : BlockChain) :
  Chain bc = [] ->
  NewTransaction sender recipient amount bc =
    Panicked IndexOutOfRange
      {| Chain := [];
         CurrentTransaction := mkTransaction sender recipient amount;
         Nodes := Nodes bc |}.
Proof.
  intro He. unfold NewTransaction, LastBlock. run_monad.
  simpl. rewrite He. rewrite index_nil. reflexivity.
Qed.

Lemma NewTransaction_keeps_chain (sender recipient : string) (amount n : Z)
    (bc bc' : BlockChain) :
  NewTransaction sender recipient amount bc = Returned n bc' -> Chain bc' = Chain bc.
Proof.
  destruct (Chain bc) as [ | b rest] eqn:E.
  - rewrite (NewTransaction_panics _ _ _ _ E). discriminate.
  - rewrite (NewTransaction_returns _ _ _ _ Block_zero) by (rewrite E; discriminate).
    intro H. injection H as _ <-. simpl. exact E.
Qed.

Lemma init_returns (now : Z) (s0 : BlockChain) :
  init now s0 =
    Returned tt {| Chain := [mkBlock 1 now Transaction_zero 100 "1"];
                   CurrentTransaction := Transaction_zero;
                   Nodes := [] |}.
Proof. reflexivity. Qed.

Lemma produced_linked (bc : BlockChain) :
  produced derived_hash bc ->
  Chain bc <> [] /\ is_valid_chain_spec (Chain bc) = true.
Proof.
  induction 1 as [now s0 bc Hinit
                 | bc now ph proof blk bc' Hp [Hne Hv] Hph Hnb
                 | bc sender recipient amount n bc' Hp [Hne Hv] Hnt].
  - rewrite init_returns in Hinit. injection Hinit as <-. simpl.
    split; [discriminate | reflexivity].
  - rewrite (NewBlock_returns now ph proof bc Block_zero) in Hnb by (left; exact Hne).
    injection Hnb as _ <-. unfold made_block. simpl.
    split; [intro H; apply app_eq_nil in H; destruct H; discriminate | ].
    destruct (exists_last Hne) as [pre [last Epre]].
    rewrite Epre in *. rewrite is_valid_chain_spec_snoc, Hv. simpl.
    apply string_eqb_eq. rewrite last_last.
    destruct (string_eqb ph EmptyString) eqn:E; [reflexivity | ].
    destruct Hph as [-> | [pre' [last' [Hc ->]]]]; [discriminate | ].
    simpl in Hc. rewrite Epre in Hc.
    apply app_inj_tail in Hc. destruct Hc as [_ ->]. reflexivity.
  - rewrite (NewTransaction_keeps_chain _ _ _ _ _ _ Hnt). split; assumption.
Qed.

(** C4, as amended.  Every ledger obtained from initialisation by
    [NewBlock] calls whose explicit previous hash is empty or is the hash of
    the current last block, interleaved with any [NewTransaction] calls, has
    a chain that [validChain] accepts; on such a ledger a further call of
    either operation returns. *)
Theorem produced_chain_valid (bc : BlockChain) :
  produced derived_hash bc ->
  validChain (Chain bc) bc = Returned true bc
  /\ (forall (now proof : Z), exists blk bc',
        NewBlock now EmptyString proof bc = Returned blk bc'
        /\ produced derived_hash bc')
  /\ (forall (sender recipient : string) (amount : Z), exists n bc',
        NewTransaction sender recipient amount bc = Returned n bc'
        /\ produced derived_hash bc').
Proof.
  intro Hp. destruct (produced_linked bc Hp) as [Hne Hv].
  split; [rewrite validChain_returns by exact Hne; rewrite Hv; reflexivity | ].
  split.
  - intros now proof. eexists. eexists. split.
    + apply (NewBlock_returns now EmptyString proof bc Block_zero). left. exact Hne.
    + eapply produced_block; [exact Hp | left; reflexivity | ].
      apply (NewBlock_returns now EmptyString proof bc Block_zero). left. exact Hne.
  - intros sender recipient amount. eexists. eexists. split.
    + apply (NewTransaction_returns _ _ _ _ Block_zero Hne).
    + eapply produced_transfer; [exact Hp | ].
      apply (NewTransaction_returns _ _ _ _ Block_zero Hne).
Qed.

Lemma mined_ledger_produced : produced derived_hash mined_ledger.
Proof.
  apply (produced_block derived_hash
           {| Chain := [genesis_at_0];
              CurrentTransaction := Transaction_zero; Nodes := [] |}
           1 EmptyString 7
           (mkBlock 2 1 Transaction_zero 7 (Hash genesis_at_0))).
  - apply (produced_init derived_hash 0 BlockChain_zero). reflexivity.
  - left. reflexivity.
  - reflexivity.
Defined.

Lemma produced_chain_valid_witness :
  validChain (Chain mined_ledger) mined_ledger = Returned true mined_ledger.
Proof.
  exact (proj1 (produced_chain_valid mined_ledger mined_ledger_produced)).
Defined.

(** C4, as stated, fails: one [NewBlock] call with an explicit previous hash
    that is not the digest of the genesis block gives a chain that
    [validChain] rejects. *)
Lemma explicit_hash_breaks_link :
  produced any_hash forged_ledger
  /\ validChain (Chain forged_ledger) forged_ledger = Returned false forged_ledger.
Proof.
  split.
  - apply (produced_block any_hash
             {| Chain := [genesis_at_0];
                CurrentTransaction := Transaction_zero; Nodes := [] |}
             1 "abc" 7 (mkBlock 2 1 Transaction_zero 7 "abc")).
    + apply (produced_init any_hash 0 BlockChain_zero). reflexivity.
    + exact I.
    + reflexivity.
  - vm_compute. reflexivity.
Qed.

(** ** Tampering *)

Lemma replace_at_length (i : nat) (b : Block) (chain : list Block) :
  (i < List.length chain)%nat ->
  List.length (replace_at i b chain) = List.length chain.
Proof.
  intro Hi. unfold replace_at. rewrite length_app, length_firstn.
  cbn [List.length]. rewrite length_skipn. lia.
Qed.

Lemma replace_at_nth_same (i : nat) (b : Block) (chain : list Block) (d : Block) :
  (i < List.length chain)%nat -> nth i (replace_at i b chain) d = b.
Proof.
  intro Hi. unfold replace_at.
  rewrite app_nth2; rewrite length_firstn; [ | lia].
  replace (i - Nat.min i (List.length chain))%nat with 0%nat by lia. reflexivity.
Qed.

Lemma replace_at_nth_next (i : nat) (b : Block) (chain : list Block) (d : Block) :
  (i < List.length chain)%nat ->
  nth (S i) (replace_at i b chain) d = nth (S i) chain d.
Proof.
  intro Hi. unfold replace_at.
  rewrite app_nth2; rewrite length_firstn; [ | lia].
  replace (S i - Nat.min i (List.length chain))%nat with 1%nat by lia.
  cbn [nth]. rewrite nth_skipn. f_equal. lia.
Qed.

(** C5, as amended.  In a chain that [validChain] accepts, replacing a block
    other than the last by a block whose hash is different makes
    [validChain] answer false. *)
Theorem tamper_detected (chain : list Block) (s : BlockChain) (i : nat)
    (b' d : Block) :
  validChain chain s = Returned true s ->
  (S i < List.length chain)%nat ->
  Hash b' <> Hash (nth i chain d) ->
  validChain (replace_at i b' chain) s = Returned false s.
Proof.
  intros Hv Hi Hh.
  assert (Hne : chain <> []) by (intro E; rewrite E in Hi; simpl in Hi; lia).
  rewrite validChain_returns in Hv by exact Hne.
  injection Hv as Hv.
  assert (Hlen : List.length (replace_at i b' chain) = List.length chain)
    by (apply replace_at_length; lia).
  rewrite validChain_returns
    by (intro E; rewrite E in Hlen; simpl in Hlen; lia).
  f_equal. apply not_true_is_false. intro Hv'.
  pose proof (proj1 (is_valid_chain_spec_true chain d) Hv) as Hl.
  pose proof (proj1 (is_valid_chain_spec_true _ d) Hv') as Hl'.
  specialize (Hl i Hi).
  assert (Hi' : (S i < List.length (replace_at i b' chain))%nat) by lia.
  specialize (Hl' i Hi').
  rewrite replace_at_nth_next, replace_at_nth_same in Hl' by lia.
  apply Hh. rewrite <- Hl', Hl. reflexivity.
Qed.

Lemma tamper_detected_witness :
  validChain (replace_at 0 (sent_by "eve") chain_ff) BlockChain_zero
  = Returned false BlockChain_zero.
Proof.
  apply (tamper_detected chain_ff BlockChain_zero 0 (sent_by "eve") Block_zero).
  - vm_compute. reflexivity.
  - simpl. lia.
  - vm_compute. discriminate.
Defined.

(** C5, as stated, fails: the JSON text of a block writes every ill-formed
    UTF-8 byte of a string as the same replacement escape, so two blocks
    that differ in such a byte have one hash, and putting one in the place
    of the other in a valid chain goes unnoticed. *)
Lemma tamper_undetected :
  validChain chain_ff BlockChain_zero = Returned true BlockChain_zero
  /\ (1 < List.length chain_ff)%nat
  /\ sent_by byte_fe <> nth 0 chain_ff Block_zero
  /\ Sender (Transactions (sent_by byte_fe))
     <> Sender (Transactions (nth 0 chain_ff Block_zero))
  /\ validChain (replace_at 0 (sent_by byte_fe) chain_ff) BlockChain_zero
     = Returned true BlockChain_zero.
Proof.
  split; [vm_compute; reflexivity | ].
  split; [simpl; lia | ].
  split; [vm_compute; discriminate | ].
  split; [vm_compute; discriminate | ].
  vm_compute. reflexivity.
Qed.

(** ** The pending transfer *)

(** C8.  On a ledger whose chain is not empty, [NewTransaction] puts the
    given record in the pending slot whatever was there, returns the index
    of the last block plus one and leaves the chain as it was; of two calls
    in a row only the second shows, and the block made next carries it.
    Any sender, recipient and amount are taken. *)
Theorem NewTransaction_spec (sender recipient : string) (amount : Z)
    (bc : BlockChain) (d : Block) :
  Chain bc <> [] ->
  NewTransaction sender recipient amount bc =
    Returned (GoInt.add (Index (List.last (Chain bc) d)) 1)
      {| Chain := Chain bc;
         CurrentTransaction := mkTransaction sender recipient amount;
         Nodes := Nodes bc |}
  /\ (GoInt.in_range (Index (List.last (Chain bc) d) + 1) ->
      GoInt.add (Index (List.last (Chain bc) d)) 1 = Index (List.last (Chain bc) d) + 1)
  /\ (forall (sender0 recipient0 : string) (amount0 : Z),
        (NewTransaction sender0 recipient0 amount0 ;;
         NewTransaction sender recipient amount) bc
        = NewTransaction sender recipient amount bc)
  /\ (forall (sender0 recipient0 : string) (amount0 now : Z) (ph : string) (proof : Z),
        exists blk : Block,
          (NewTransaction sender0 recipient0 amount0 ;;
           NewTransaction sender recipient amount ;;
           NewBlock now ph proof) bc
          = Returned blk {| Chain := Chain bc ++ [blk];
                            CurrentTransaction := Transaction_zero;
                            Nodes := Nodes bc |}
          /\ Transactions blk = mkTransaction sender recipient amount).
Proof.
  intro Hne. split; [apply NewTransaction_returns; exact Hne | ].
  split; [apply add_small | ].
  split.
  - intros sender0 recipient0 amount0. unfold bind.
    rewrite (NewTransaction_returns sender0 recipient0 amount0 bc d Hne).
    rewrite !(NewTransaction_returns sender recipient amount _ d) by exact Hne.
    reflexivity.
  - intros sender0 recipient0 amount0 now ph proof. unfold bind.
    rewrite (NewTransaction_returns sender0 recipient0 amount0 bc d Hne).
    rewrite (NewTransaction_returns sender recipient amount _ d) by exact Hne.
    rewrite (NewBlock_returns now ph proof _ d) by (left; exact Hne).
    eexists. split; reflexivity.
Qed.

Lemma NewTransaction_spec_witness :
  NewTransaction "carol" "dave" 9 pending_ledger =
    Returned 2 {| Chain := [genesis_at_0];
                  CurrentTransaction := mkTransaction "carol" "dave" 9;
                  Nodes := [] |}.
Proof.
  refine (proj1 (NewTransaction_spec "carol" "dave" 9 pending_ledger Block_zero _)).
  discriminate.
Defined.

(** ** Proof of work *)

Lemma substring_4_zeros (s : string) :
  string_eqb (String.substring 0 4 s) "0000" =
  (4 <=? List.length (list_ascii_of_string s))%nat
  && List.forallb (fun c => Ascii.eqb c "0"%char)
       (List.firstn 4 (list_ascii_of_string s)).
Proof.
  unfold string_eqb.
  destruct s as [ | a s]; [reflexivity | ].
  destruct s as [ | b s]; [simpl; destruct (Ascii.eqb a "0"); reflexivity | ].
  destruct s as [ | c s];
    [simpl; destruct (Ascii.eqb a "0"); [destruct (Ascii.eqb b "0") | ]; reflexivity | ].
  destruct s as [ | e s].
  - simpl. destruct (Ascii.eqb a "0"); [ | reflexivity].
    destruct (Ascii.eqb b "0"); [ | reflexivity].
    destruct (Ascii.eqb c "0"); reflexivity.
  - assert (H0 : String.substring 0 0 s = EmptyString) by (destruct s; reflexivity).
    cbn [String.substring list_ascii_of_string List.length List.firstn List.forallb
         Nat.leb String.eqb andb].
    rewrite H0.
    destruct (Ascii.eqb a "0"); [ | reflexivity].
    destruct (Ascii.eqb b "0"); [ | reflexivity].
    destruct (Ascii.eqb c "0"); [ | reflexivity].
    destruct (Ascii.eqb e "0"); reflexivity.
Qed.

Lemma validProof_is_valid_spec (lastProof proof : Z) :
  validProof lastProof proof = is_valid_spec lastProof proof.
Proof. unfold validProof, is_valid_spec. apply substring_4_zeros. Qed.

(** The loop started at [start] stops at the first valid candidate. *)
Lemma ProofOfWork_loop_finds (lastProof : Z) (k : nat) :
  forall (start : Z) (fuel : nat),
    0 <= start ->
    start + Z.of_nat k <= GoInt.max_int ->
    validProof lastProof (start + Z.of_nat k) = true ->
    (forall c : Z, start <= c < start + Z.of_nat k -> validProof lastProof c = false) ->
    (k < fuel)%nat ->
    ProofOfWork_loop fuel lastProof start = Some (start + Z.of_nat k).
Proof.
  induction k as [ | k IH]; intros start fuel H0 Hmax Hv Hbelow Hfuel.
  - destruct fuel as [ | fuel]; [lia | ].
    replace (start + Z.of_nat 0) with start in * by lia.
    cbn [ProofOfWork_loop]. rewrite Hv. reflexivity.
  - destruct fuel as [ | fuel]; [lia | ].
    replace (start + Z.of_nat (S k)) with (start + 1 + Z.of_nat k) in * by lia.
    cbn [ProofOfWork_loop]. rewrite (Hbelow start) by lia. cbn [Bool.eqb].
    rewrite add_small
      by (unfold GoInt.in_range, GoInt.min_int, GoInt.max_int in *; lia).
    apply IH; try lia; try assumption.
    intros c Hc. apply Hbelow. lia.
Qed.

(** Below a valid candidate there is a least one. *)
Lemma least_valid (lastProof : Z) (n : nat) :
  (forall c : Z, 0 <= c <= Z.of_nat n -> validProof lastProof c = false)
  \/ exists q : nat, (q <= n)%nat
       /\ validProof lastProof (Z.of_nat q) = true
       /\ forall c : Z, 0 <= c < Z.of_nat q -> validProof lastProof c = false.
Proof.
  induction n as [ | n [IH | [q [Hq [Hv Hb]]]]].
  - destruct (validProof lastProof 0) eqn:E.
    + right. exists 0%nat. split; [lia | ]. split; [exact E | intros c Hc; lia].
    + left. intros c Hc. replace c with 0 by lia. exact E.
  - destruct (validProof lastProof (Z.of_nat (S n))) eqn:E.
    + right. exists (S n). split; [lia | ]. split; [exact E | ].
      intros c Hc. apply IH. lia.
    + left. intros c Hc.
      destruct (Z.eq_dec c (Z.of_nat (S n))) as [-> | Hne]; [exact E | apply IH; lia].
  - right. exists q. split; [lia | ]. split; assumption.
Qed.

(** C2.  Whenever some non-negative [int] satisfies the predicate for the
    reference, [ProofOfWork] returns (given fuel enough to reach it) the
    least non-negative integer that satisfies it, so [validProof] holds of
    the reference and the returned proof; the predicate is the one of the
    specification: the first four hexadecimal characters of the SHA-256
    digest of the two decimal texts put together are zeros. *)
Theorem ProofOfWork_least (lastProof p : Z) :
  0 <= p <= GoInt.max_int ->
  validProof lastProof p = true ->
  exists (q : Z) (fuel : nat),
    (forall fuel' : nat, (fuel <= fuel')%nat -> ProofOfWork fuel' lastProof = Some q)
    /\ 0 <= q <= p
    /\ validProof lastProof q = true
    /\ (forall c : Z, 0 <= c < q -> validProof lastProof c = false)
    /\ (forall c : Z, validProof lastProof c = is_valid_spec lastProof c).
Proof.
  intros Hp Hv.
  destruct (least_valid lastProof (Z.to_nat p)) as [Hnone | [q [Hq [Hvq Hb]]]].
  - rewrite Hnone in Hv by lia. discriminate.
  - exists (Z.of_nat q), (S q). split.
    + intros fuel' Hf. unfold ProofOfWork.
      apply (ProofOfWork_loop_finds lastProof q 0 fuel'); try lia; assumption.
    + split; [lia | ]. split; [exact Hvq | ]. split; [exact Hb | ].
      apply validProof_is_valid_spec.
Qed.

Lemma ProofOfWork_least_witness :
  exists (q : Z) (fuel : nat),
    (forall fuel' : nat, (fuel <= fuel')%nat -> ProofOfWork fuel' (-105) = Some q)
    /\ 0 <= q <= 5
    /\ validProof (-105) q = true
    /\ (forall c : Z, 0 <= c < q -> validProof (-105) c = false)
    /\ (forall c : Z, validProof (-105) c = is_valid_spec (-105) c).
Proof.
  apply (ProofOfWork_least (-105) 5).
  - unfold GoInt.max_int. lia.
  - vm_compute. reflexivity.
Defined.

(** The search run on a concrete reference. *)
Example ProofOfWork_example : ProofOfWork 6 (-105) = Some 5.
Proof. vm_compute. reflexivity. Qed.

(** ** Consensus *)

Lemma resolve_loop_app (pre post : list Response) (acc : Z * list Block) (s : BlockChain) :
  resolve_loop (pre ++ post) acc s =
  (acc' <- resolve_loop pre acc ;; resolve_loop post acc') s.
Proof.
  revert acc s. induction pre as [ | r pre IH]; intros acc s.
  - reflexivity.
  - simpl. unfold bind.
    destruct (resolve_step r acc s) as [acc1 s1 | p s1]; [ | reflexivity].
    rewrite IH. unfold bind. reflexivity.
Qed.

(** One turn of the loop on an answer whose chain is not empty is one
    [adopt] of the specification. *)
Lemma resolve_step_adopt (peer : FullChain) (best : Z * option (list Block))
    (s : BlockChain) :
  FullChain_Chain peer <> [] ->
  resolve_step (Got 200 (Some peer)) (fst best, chain_of (snd best)) s =
  Returned (fst (adopt best peer), chain_of (snd (adopt best peer))) s.
Proof.
  intro Hne. unfold resolve_step, adopt. simpl.
  destruct (fst best <? FullChain_Length peer); simpl; [ | reflexivity].
  unfold bind. rewrite validChain_returns by exact Hne.
  destruct (is_valid_chain_spec (FullChain_Chain peer)); reflexivity.
Qed.

Lemma resolve_loop_scan (peers : list FullChain) :
  forall (best : Z * option (list Block)) (s : BlockChain),
    Forall (fun p => FullChain_Chain p <> []) peers ->
    resolve_loop (answers peers) (fst best, chain_of (snd best)) s =
    Returned (fst (List.fold_left adopt peers best),
              chain_of (snd (List.fold_left adopt peers best))) s.
Proof.
  induction peers as [ | p peers IH]; intros best s Hall.
  - reflexivity.
  - inversion Hall as [ | p' peers' Hp Hrest]; subst.
    unfold answers. cbn [List.map resolve_loop List.fold_left].
    fold (answers peers). unfold bind.
    rewrite (resolve_step_adopt p best s Hp).
    apply IH. exact Hrest.
Qed.

Lemma adopt_mono (best : Z * option (list Block)) (p : FullChain) :
  fst best <= fst (adopt best p).
Proof.
  unfold adopt. destruct (fst best <? FullChain_Length p) eqn:E; simpl; [ | lia].
  destruct (is_valid_chain_spec (FullChain_Chain p)); simpl; [ | lia].
  apply Z.ltb_lt in E. lia.
Qed.

Lemma scan_mono (peers : list FullChain) (best : Z * option (list Block)) :
  fst best <= fst (List.fold_left adopt peers best).
Proof.
  revert best. induction peers as [ | p peers IH]; intro best; simpl; [lia | ].
  pose proof (adopt_mono best p). specialize (IH (adopt best p)). lia.
Qed.

(** A best chain at the end of the scan was there at the start or was taken
    from a peer whose reported length beat the running best and whose chain
    passed the check. *)
Lemma scan_some (peers : list FullChain) (start : Z * option (list Block))
    (c : list Block) :
  snd (List.fold_left adopt peers start) = Some c ->
  snd start = Some c
  \/ exists pre p post,
       peers = pre ++ p :: post
       /\ c = FullChain_Chain p
       /\ fst (List.fold_left adopt pre start) < FullChain_Length p
       /\ is_valid_chain_spec (FullChain_Chain p) = true.
Proof.
  induction peers as [ | x l IH] using rev_ind; intro H.
  - left. exact H.
  - rewrite fold_left_app in H. simpl in H. unfold adopt at 1 in H.
    destruct ((fst (List.fold_left adopt l start) <? FullChain_Length x)
              && is_valid_chain_spec (FullChain_Chain x)) eqn:E.
    + right. simpl in H. injection H as <-.
      apply andb_true_iff in E. destruct E as [E1 E2]. apply Z.ltb_lt in E1.
      exists l, x, []. repeat split; assumption.
    + destruct (IH H) as [Hs | [pre [p [post [-> [Hc [Hlt Hv]]]]]]]; [left; exact Hs | ].
      right. exists pre, p, (post ++ [x]).
      rewrite <- app_assoc. repeat split; assumption.
Qed.

(** A peer that reports no more than the length the scan started from has
    no part in its result. *)
Lemma scan_skip (pre post : list FullChain) (p : FullChain)
    (start : Z * option (list Block)) :
  FullChain_Length p <= fst start ->
  List.fold_left adopt (pre ++ p :: post) start = List.fold_left adopt (pre ++ post) start.
Proof.
  intro Hle. rewrite !fold_left_app. simpl. f_equal.
  unfold adopt at 1. pose proof (scan_mono pre start) as Hm.
  destruct (fst (List.fold_left adopt pre start) <? FullChain_Length p) eqn:E;
    [apply Z.ltb_lt in E; lia | reflexivity].
Qed.

(** [resolveConflicts] on peers that all answer with a chain that is not
    empty does what the specification's scan says. *)
Lemma resolveConflicts_scan (http_Get : string -> Response) (bc : BlockChain)
    (peers : list FullChain) :
  requests http_Get bc = answers peers ->
  Forall (fun p => FullChain_Chain p <> []) peers ->
  resolveConflicts http_Get bc =
    Returned (fst (resolve_spec (Chain bc) peers))
      {| Chain := snd (resolve_spec (Chain bc) peers);
         CurrentTransaction := CurrentTransaction bc;
         Nodes := Nodes bc |}.
Proof.
  intros Hreq Hall. unfold resolveConflicts, bind, get.
  fold (requests http_Get bc). rewrite Hreq.
  pose proof (resolve_loop_scan peers (GoInt.len (Chain bc), None) bc Hall) as Hscan.
  cbn [fst snd chain_of] in Hscan. rewrite Hscan.
  unfold resolve_spec, scan_spec. cbn [snd].
  destruct (snd (List.fold_left adopt peers (GoInt.len (Chain bc), None)))
    as [c | ] eqn:E; cbn [chain_of fst snd].
  - destruct (scan_some _ _ _ E) as [Hs | [pre [p [post [-> [-> [_ _]]]]]]];
      [discriminate | ].
    assert (Hp : FullChain_Chain p <> []).
    { rewrite Forall_forall in Hall. apply Hall. apply in_elt. }
    destruct (GoInt.len (FullChain_Chain p) =? 0) eqn:E0.
    + apply Z.eqb_eq in E0. apply len_zero_iff in E0. contradiction.
    + reflexivity.
  - destruct bc. reflexivity.
Qed.

(** A turn of the loop that returns was made on a decodable answer of
    status 200, left the ledger alone and did one [adopt]. *)
Lemma resolve_step_returned (r : Response) (best : Z * option (list Block))
    (s s' : BlockChain) (acc : Z * list Block) :
  resolve_step r (fst best, chain_of (snd best)) s = Returned acc s' ->
  exists p : FullChain,
    r = Got 200 (Some p)
    /\ s' = s
    /\ acc = (fst (adopt best p), chain_of (snd (adopt best p)))
    /\ (snd (adopt best p) = snd best
        \/ (snd (adopt best p) = Some (FullChain_Chain p) /\ FullChain_Chain p <> [])).
Proof.
  destruct r as [ | code [p | ]]; cbn [resolve_step]; try discriminate.
  - destruct (code =? 200) eqn:Ec; cbn [negb]; [ | discriminate].
    apply Z.eqb_eq in Ec. subst code.
    destruct (fst best <? FullChain_Length p) eqn:El.
    + destruct (FullChain_Chain p) as [ | b rest] eqn:Ep.
      * unfold bind. rewrite validChain_nil. discriminate.
      * unfold bind. rewrite validChain_returns by discriminate.
        destruct (is_valid_chain_spec (b :: rest)) eqn:Ev; unfold ret; intro H;
          injection H as <- <-; exists p; unfold adopt; rewrite El, Ep, Ev;
          cbn [andb fst snd chain_of].
        -- split; [reflexivity | ]. split; [reflexivity | ]. split; [reflexivity | ].
           right. split; [reflexivity | discriminate].
        -- split; [reflexivity | ]. split; [reflexivity | ]. split; [reflexivity | ].
           left. reflexivity.
    + unfold ret. intro H. injection H as <- <-. exists p.
      unfold adopt. rewrite El. cbn [andb].
      split; [reflexivity | ]. split; [reflexivity | ]. split; [reflexivity | ].
      left. reflexivity.
  - destruct (code =? 200); cbn [negb]; discriminate.
Qed.

Lemma resolve_loop_returned (rs : list Response) :
  forall (best : Z * option (list Block)) (s s' : BlockChain) (acc : Z * list Block),
    (forall c, snd best = Some c -> c <> []) ->
    resolve_loop rs (fst best, chain_of (snd best)) s = Returned acc s' ->
    exists peers : list FullChain,
      rs = answers peers
      /\ s' = s
      /\ acc = (fst (List.fold_left adopt peers best),
                chain_of (snd (List.fold_left adopt peers best)))
      /\ (forall c, snd (List.fold_left adopt peers best) = Some c -> c <> []).
Proof.
  induction rs as [ | r rs IH]; intros best s s' acc Hinv H.
  - exists []. unfold ret in H. cbn [resolve_loop] in H. injection H as <- <-.
    repeat split. exact Hinv.
  - cbn [resolve_loop] in H. unfold bind in H.
    destruct (resolve_step r (fst best, chain_of (snd best)) s) as [acc1 s1 | ] eqn:E;
      [ | discriminate].
    destruct (resolve_step_returned r best s s1 acc1 E) as [p [-> [-> [-> Hor]]]].
    destruct (IH (adopt best p) s s' acc) as [peers [-> [-> [-> Hinv']]]].
    + intros c Hc. destruct Hor as [Hsame | [Hnew Hne]].
      * apply Hinv. rewrite <- Hsame. exact Hc.
      * rewrite Hnew in Hc. injection Hc as <-. exact Hne.
    + exact H.
    + exists (p :: peers). repeat split. exact Hinv'.
Qed.

(** Whenever [resolveConflicts] returns, every peer had answered and the
    outcome is the one of the specification's scan. *)
Lemma resolveConflicts_returned (http_Get : string -> Response) (bc bc' : BlockChain)
    (b : bool) :
  resolveConflicts http_Get bc = Returned b bc' ->
  exists peers : list FullChain,
    requests http_Get bc = answers peers
    /\ b = fst (resolve_spec (Chain bc) peers)
    /\ bc' = {| Chain := snd (resolve_spec (Chain bc) peers);
                CurrentTransaction := CurrentTransaction bc;
                Nodes := Nodes bc |}.
Proof.
  unfold resolveConflicts, bind, get. fold (requests http_Get bc).
  destruct (resolve_loop (requests http_Get bc) (GoInt.len (Chain bc), []) bc)
    as [acc s1 | ] eqn:E; [ | discriminate].
  intro H.
  destruct (resolve_loop_returned (requests http_Get bc)
              (GoInt.len (Chain bc), None) bc s1 acc) as
    [peers [Hreq [-> [-> Hinv]]]]; [discriminate | exact E | ].
  exists peers. split; [exact Hreq | ].
  unfold resolve_spec, scan_spec. cbn [snd] in *.
  destruct (snd (List.fold_left adopt peers (GoInt.len (Chain bc), None)))
    as [c | ] eqn:Ec; cbn [chain_of fst snd] in *.
  - destruct (GoInt.len c =? 0) eqn:E0.
    + apply Z.eqb_eq in E0. apply len_zero_iff in E0. exfalso. exact (Hinv c eq_refl E0).
    + cbn [negb] in H. unfold set_Chain, ret in H. injection H as <- <-.
      split; reflexivity.
  - change (GoInt.len (@nil Block) =? 0) with true in H. cbn [negb] in H.
    unfold ret in H. injection H as <- <-. split; [reflexivity | ].
    destruct bc; reflexivity.
Qed.

(** C1.  [resolveConflicts] does what the scan of the specification says:
    starting from the local length, a peer's chain is taken exactly when
    its reported length is strictly above the running best and its chain
    passes [validChain]; when a chain was taken the local chain becomes the
    last one taken and the answer is true, otherwise the answer is false
    and the local chain is as before.  This is its outcome whenever every
    peer answers with a chain that is not empty, and on every run in which
    it returns at all.  A chain that is taken comes from a peer that
    reports more than the local length, and a peer that reports exactly the
    local length has no part in the outcome, whatever chain it sends. *)
Theorem resolveConflicts_spec (http_Get : string -> Response) (bc : BlockChain) :
  (forall peers : list FullChain,
      requests http_Get bc = answers peers ->
      Forall (fun p => FullChain_Chain p <> []) peers ->
      resolveConflicts http_Get bc =
        Returned (fst (resolve_spec (Chain bc) peers))
          {| Chain := snd (resolve_spec (Chain bc) peers);
             CurrentTransaction := CurrentTransaction bc;
             Nodes := Nodes bc |})
  /\ (forall (b : bool) (bc' : BlockChain),
        resolveConflicts http_Get bc = Returned b bc' ->
        exists peers : list FullChain,
          requests http_Get bc = answers peers
          /\ b = fst (resolve_spec (Chain bc) peers)
          /\ bc' = {| Chain := snd (resolve_spec (Chain bc) peers);
                      CurrentTransaction := CurrentTransaction bc;
                      Nodes := Nodes bc |})
  /\ (forall peers : list FullChain,
        (fst (resolve_spec (Chain bc) peers) = true ->
         exists pre p post,
           peers = pre ++ p :: post
           /\ snd (resolve_spec (Chain bc) peers) = FullChain_Chain p
           /\ fst (scan_spec (Chain bc) pre) < FullChain_Length p
           /\ GoInt.len (Chain bc) < FullChain_Length p
           /\ is_valid_chain_spec (FullChain_Chain p) = true)
        /\ (fst (resolve_spec (Chain bc) peers) = false ->
            snd (resolve_spec (Chain bc) peers) = Chain bc)
        /\ (forall pre p post,
              peers = pre ++ p :: post ->
              FullChain_Length p = GoInt.len (Chain bc) ->
              resolve_spec (Chain bc) peers = resolve_spec (Chain bc) (pre ++ post))).
Proof.
  split; [intros peers; apply resolveConflicts_scan | ].
  split; [intros b bc'; apply resolveConflicts_returned | ].
  intro peers. split; [ | split].
  - unfold resolve_spec, scan_spec.
    destruct (snd (List.fold_left adopt peers (GoInt.len (Chain bc), None)))
      as [c | ] eqn:E; cbn [fst snd]; [intros _ | discriminate].
    destruct (scan_some _ _ _ E) as [Hs | [pre [p [post [Hpeers [Hc [Hlt Hv]]]]]]];
      [discriminate | ].
    exists pre, p, post. split; [exact Hpeers | ]. split; [exact Hc | ].
    split; [exact Hlt | ]. split; [ | exact Hv].
    pose proof (scan_mono pre (GoInt.len (Chain bc), None)) as Hm. simpl in Hm. lia.
  - unfold resolve_spec.
    destruct (snd (scan_spec (Chain bc) peers)); cbn [fst snd];
      [discriminate | reflexivity].
  - intros pre p post -> Hlen. unfold resolve_spec, scan_spec.
    rewrite scan_skip by (simpl; lia). reflexivity.
Qed.

Lemma resolveConflicts_spec_witness :
  resolveConflicts net_tie local_1 =
    Returned true {| Chain := chain_a;
                     CurrentTransaction := Transaction_zero;
                     Nodes := ["a"; "b"] |}.
Proof.
  refine (proj1 (resolveConflicts_spec net_tie local_1)
            [mkFullChain chain_a 1; mkFullChain chain_a 2] _ _).
  - reflexivity.
  - repeat constructor; discriminate.
Defined.

(** A peer that reports exactly the local length and sends a valid chain of
    two blocks is not followed. *)
Example resolveConflicts_tie :
  resolveConflicts
    (fun url => Got 200 (Some (mkFullChain chain_a 1)))
    {| Chain := [genesis_at_0]; CurrentTransaction := Transaction_zero; Nodes := ["a"] |}
  = Returned false
      {| Chain := [genesis_at_0]; CurrentTransaction := Transaction_zero; Nodes := ["a"] |}.
Proof. vm_compute. reflexivity. Qed.

(** C9.  The comparison is made on the length the peer reports, not on the
    number of blocks it sends: a single peer that reports more than the
    local length and sends a valid chain with fewer blocks than the local
    chain is followed, [resolveConflicts] answers true and the local chain
    is strictly shorter afterwards. *)
Theorem reported_length_decides (http_Get : string -> Response) (bc : BlockChain)
    (node : string) (peer : FullChain) :
  Nodes bc = [node] ->
  http_Get (node ++ "/chain")%string = Got 200 (Some peer) ->
  GoInt.len (Chain bc) < FullChain_Length peer ->
  validChain (FullChain_Chain peer) bc = Returned true bc ->
  GoInt.len (FullChain_Chain peer) < GoInt.len (Chain bc) ->
  exists bc' : BlockChain,
    resolveConflicts http_Get bc = Returned true bc'
    /\ Chain bc' = FullChain_Chain peer
    /\ GoInt.len (Chain bc') < GoInt.len (Chain bc).
Proof.
  intros Hnodes Hget Hlen Hvalid Hshort.
  assert (Hne : FullChain_Chain peer <> []).
  { intro E. rewrite E, validChain_nil in Hvalid. discriminate. }
  rewrite validChain_returns in Hvalid by exact Hne. injection Hvalid as Hvalid.
  eexists. split.
  - rewrite (resolveConflicts_scan http_Get bc [peer]).
    + unfold resolve_spec, scan_spec. cbn [List.fold_left]. unfold adopt. cbn [fst snd].
      apply Z.ltb_lt in Hlen. rewrite Hlen, Hvalid. reflexivity.
    + unfold requests. rewrite Hnodes. simpl. rewrite Hget. reflexivity.
    + constructor; [exact Hne | constructor].
  - split; [reflexivity | exact Hshort].
Qed.

Lemma reported_length_decides_witness :
  exists bc' : BlockChain,
    resolveConflicts net_short local_3 = Returned true bc'
    /\ Chain bc' = [genesis_at_0]
    /\ GoInt.len (Chain bc') < GoInt.len (Chain local_3).
Proof.
  apply (reported_length_decides net_short local_3 "a" (mkFullChain [genesis_at_0] 5)).
  - reflexivity.
  - reflexivity.
  - vm_compute. reflexivity.
  - reflexivity.
  - vm_compute. reflexivity.
Defined.

(** C10, as amended.  [validChain] reads element 0 of the candidate before
    anything else, so on the empty chain it panics with an index out of
    range; a peer answer that carries an empty chain and reports more than
    the running best length at the time it is scanned (the local length, if
    it is the first answer) makes [resolveConflicts] panic, the ledger being
    left as it was. *)
Theorem empty_chain_aborts (http_Get : string -> Response) (bc : BlockChain)
    (pre post : list Response) (peer : FullChain) (best : Z * list Block) :
  requests http_Get bc = pre ++ Got 200 (Some peer) :: post ->
  resolve_loop pre (GoInt.len (Chain bc), []) bc = Returned best bc ->
  FullChain_Chain peer = [] ->
  fst best < FullChain_Length peer ->
  validChain (FullChain_Chain peer) bc = Panicked IndexOutOfRange bc
  /\ resolveConflicts http_Get bc = Panicked IndexOutOfRange bc.
Proof.
  intros Hreq Hpre Hempty Hlt.
  split; [rewrite Hempty; apply validChain_nil | ].
  unfold resolveConflicts, bind, get. fold (requests http_Get bc).
  rewrite Hreq, resolve_loop_app. unfold bind. rewrite Hpre.
  cbn [resolve_loop]. unfold bind.
  destruct best as [maxLength newChain]. cbn [resolve_step fst] in *.
  change (negb (200 =? 200)) with false. cbv iota.
  apply Z.ltb_lt in Hlt. rewrite Hlt.
  unfold bind. rewrite Hempty, validChain_nil. reflexivity.
Qed.

Lemma empty_chain_aborts_witness :
  resolveConflicts
    (fun url => Got 200 (Some (mkFullChain [] 2)))
    {| Chain := [genesis_at_0]; CurrentTransaction := Transaction_zero; Nodes := ["b"] |}
  = Panicked IndexOutOfRange
      {| Chain := [genesis_at_0]; CurrentTransaction := Transaction_zero; Nodes := ["b"] |}.
Proof.
  refine (proj2 (empty_chain_aborts
                   (fun url => Got 200 (Some (mkFullChain [] 2)))
                   {| Chain := [genesis_at_0];
                      CurrentTransaction := Transaction_zero; Nodes := ["b"] |}
                   [] [] (mkFullChain [] 2) (1, []) _ _ _ _)).
  - reflexivity.
  - reflexivity.
  - reflexivity.
  - simpl. lia.
Defined.

(** C10, as stated, fails: after a peer that was followed with a reported
    length of 3, an answer with an empty chain and a reported length of 2,
    which is more than the local length 1, is passed over without a look at
    its chain, and [resolveConflicts] returns. *)
Lemma empty_chain_passed_over :
  net_ab "b/chain" = Got 200 (Some (mkFullChain [] 2))
  /\ In "b" (Nodes local_1)
  /\ GoInt.len (Chain local_1) < 2
  /\ resolveConflicts net_ab local_1 =
       Returned true {| Chain := chain_a;
                        CurrentTransaction := Transaction_zero;
                        Nodes := ["a"; "b"] |}.
Proof.
  split; [reflexivity | ].
  split; [right; left; reflexivity | ].
  split; [reflexivity | ].
  vm_compute. reflexivity.
Qed.

(** ** The peer registry *)

Lemma map_get_set (m : gomap) (k k' : string) (v : bool) :
  map_get (map_set m k v) k' = if string_eqb k k' then v else map_get m k'.
Proof. reflexivity. Qed.

Lemma register_loop_app (l1 l2 : list string) (acc : gomap * list string) :
  register_loop (l1 ++ l2) acc = register_loop l2 (register_loop l1 acc).
Proof.
  revert acc. induction l1 as [ | a l1 IH]; intros [fix_ one]; [reflexivity | ].
  simpl. destruct (map_get fix_ a); simpl; apply IH.
Qed.

Lemma register_loop_inv (nodes : list string) :
  forall acc : gomap * list string,
    synced acc -> NoDup (snd acc) ->
    synced (register_loop nodes acc)
    /\ NoDup (snd (register_loop nodes acc))
    /\ (forall a : string,
          In a (snd (register_loop nodes acc)) <-> In a (snd acc) \/ In a nodes).
Proof.
  induction nodes as [ | x nodes IH]; intros [fix_ one] Hs Hn.
  - simpl. split; [exact Hs | ]. split; [exact Hn | ]. intro a. tauto.
  - simpl in *. destruct (map_get fix_ x) eqn:E; simpl.
    + destruct (IH (fix_, one) Hs Hn) as [Hs' [Hn' Hin]].
      split; [exact Hs' | ]. split; [exact Hn' | ].
      intro a. rewrite Hin. simpl. split; [tauto | ].
      intros [H | [<- | H]]; [tauto | | tauto].
      left. apply (Hs x). exact E.
    + assert (Hx : ~ In x one).
      { intro H. apply (Hs x) in H. simpl in H. congruence. }
      destruct (IH (map_set fix_ x true, one ++ [x])) as [Hs' [Hn' Hin]].
      * intro a. simpl. unfold string_eqb. rewrite in_app_iff. simpl.
        destruct (String.eqb x a) eqn:Ea.
        -- apply String.eqb_eq in Ea.
           split; [intros _; right; left; exact Ea | reflexivity].
        -- apply String.eqb_neq in Ea. rewrite (Hs a). simpl. tauto.
      * simpl. apply NoDup_app; [exact Hn | repeat constructor; simpl; tauto | ].
        intros a Ha [<- | []]. contradiction.
      * split; [exact Hs' | ]. split; [exact Hn' | ].
        intro a. rewrite Hin. simpl. rewrite in_app_iff. simpl. tauto.
Qed.

Lemma synced_nil : synced ([], []).
Proof. intro a. simpl. split; [discriminate | tauto]. Qed.

(** On addresses that are all different and all new the loop keeps every
    one, in order. *)
Lemma register_loop_fresh (nodes : list string) :
  forall acc : gomap * list string,
    synced acc -> NoDup nodes ->
    (forall a : string, In a nodes -> ~ In a (snd acc)) ->
    snd (register_loop nodes acc) = snd acc ++ nodes
    /\ synced (register_loop nodes acc).
Proof.
  induction nodes as [ | x nodes IH]; intros [fix_ one] Hs Hn Hnew.
  - simpl. rewrite app_nil_r. split; [reflexivity | exact Hs].
  - inversion Hn as [ | x' l' Hx Hn']; subst. simpl in *.
    destruct (map_get fix_ x) eqn:E; simpl.
    + exfalso. apply (Hnew x); [left; reflexivity | ]. apply (Hs x). exact E.
    + destruct (IH (map_set fix_ x true, one ++ [x])) as [Heq Hs'].
      * intro a. simpl. unfold string_eqb. rewrite in_app_iff. simpl.
        destruct (String.eqb x a) eqn:Ea.
        -- apply String.eqb_eq in Ea.
           split; [intros _; right; left; exact Ea | reflexivity].
        -- apply String.eqb_neq in Ea. rewrite (Hs a). simpl. tauto.
      * exact Hn'.
      * intros a Ha. simpl. rewrite in_app_iff. simpl.
        intros [H | [<- | []]]; [exact (Hnew a (or_intror Ha) H) | contradiction].
      * simpl in Heq. rewrite Heq, <- app_assoc. split; [reflexivity | exact Hs'].
Qed.

Lemma RegisterNode_returns (address : string) (bc : BlockChain) :
  RegisterNode address bc =
    Returned tt
      {| Chain := Chain bc;
         CurrentTransaction := CurrentTransaction bc;
         Nodes := snd (register_loop (Nodes bc ++ [address]) ([], [])) |}.
Proof. reflexivity. Qed.

Lemma RegisterNode_nodup_known (address : string) (nodes : list string) :
  NoDup nodes ->
  snd (register_loop (nodes ++ [address]) ([], [])) =
    if in_dec string_dec address nodes then nodes else nodes ++ [address].
Proof.
  intro Hn. rewrite register_loop_app.
  destruct (register_loop_fresh nodes ([], []) synced_nil Hn) as [Heq Hs];
    [intros a _ [] | ].
  simpl in Heq. destruct (register_loop nodes ([], [])) as [fix_ one] eqn:E.
  simpl in Heq. subst one. simpl.
  destruct (in_dec string_dec address nodes) as [Hin | Hout].
  - apply (Hs address) in Hin. simpl in Hin. rewrite Hin. reflexivity.
  - destruct (map_get fix_ address) eqn:Eg; [ | reflexivity].
    exfalso. apply Hout. apply (Hs address). exact Eg.
Qed.

(** The peer list after [RegisterNode]. *)
Lemma RegisterNode_result (address : string) (bc : BlockChain) :
  exists nodes' : list string,
    RegisterNode address bc =
      Returned tt {| Chain := Chain bc;
                     CurrentTransaction := CurrentTransaction bc;
                     Nodes := nodes' |}
    /\ NoDup nodes'
    /\ (forall a : string, In a nodes' <-> In a (Nodes bc) \/ a = address).
Proof.
  destruct (register_loop_inv (Nodes bc ++ [address]) ([], []) synced_nil (NoDup_nil _))
    as [_ [Hn Hin]].
  eexists. split; [apply RegisterNode_returns | ].
  split; [exact Hn | ].
  intro a. rewrite Hin, in_app_iff. simpl. split.
  - intros [[] | [H | [H | []]]]; [left; exact H | right; symmetry; exact H].
  - intros [H | ->]; right; [left; exact H | right; left; reflexivity].
Qed.

(** X1.  [RegisterNode] leaves the chain and the pending transfer alone and
    makes the peer list the set of the old peers and the new address: no
    address occurs twice afterwards, even if some did before, and an
    address is listed exactly when it was listed or is the one registered.
    Registering the same address a second time changes nothing. *)
Theorem RegisterNode_set (address : string) (bc : BlockChain) :
  exists nodes' : list string,
    RegisterNode address bc =
      Returned tt {| Chain := Chain bc;
                     CurrentTransaction := CurrentTransaction bc;
                     Nodes := nodes' |}
    /\ NoDup nodes'
    /\ (forall a : string, In a nodes' <-> In a (Nodes bc) \/ a = address)
    /\ (RegisterNode address ;; RegisterNode address) bc = RegisterNode address bc.
Proof.
  destruct (RegisterNode_result address bc) as [nodes' [Hret [Hn Hin]]].
  exists nodes'. split; [exact Hret | ]. split; [exact Hn | ]. split; [exact Hin | ].
  unfold bind. rewrite Hret.
  rewrite (RegisterNode_returns address {| Chain := Chain bc;
                                           CurrentTransaction := CurrentTransaction bc;
                                           Nodes := nodes' |}).
  cbn [Chain CurrentTransaction Nodes].
  rewrite (RegisterNode_nodup_known address _ Hn).
  destruct (in_dec string_dec address nodes') as [_ | Hout]; [reflexivity | ].
  exfalso. apply Hout. apply Hin. right. reflexivity.
Qed.

(** X2.  On a peer list without repetition [RegisterNode] keeps the order:
    a known address leaves the list as it is, a new one is put at the end. *)
Theorem RegisterNode_order (address : string) (bc : BlockChain) :
  NoDup (Nodes bc) ->
  RegisterNode address bc =
    Returned tt
      {| Chain := Chain bc;
         CurrentTransaction := CurrentTransaction bc;
         Nodes := if in_dec string_dec address (Nodes bc)
                  then Nodes bc else Nodes bc ++ [address] |}.
Proof.
  intro Hn. rewrite RegisterNode_returns, (RegisterNode_nodup_known address _ Hn).
  reflexivity.
Qed.

Lemma RegisterNode_order_witness :
  RegisterNode "b" local_1 = Returned tt local_1
  /\ RegisterNode "c" local_1 =
       Returned tt {| Chain := [genesis_at_0];
                      CurrentTransaction := Transaction_zero;
                      Nodes := ["a"; "b"; "c"] |}.
Proof.
  assert (Hn : NoDup (Nodes local_1)).
  { repeat constructor; simpl; intuition discriminate. }
  split.
  - exact (RegisterNode_order "b" local_1 Hn).
  - exact (RegisterNode_order "c" local_1 Hn).
Defined.

Lemma register_each_returns (ns : list string) :
  forall bc : BlockChain,
    exists nodes' : list string,
      register_each ns bc =
        Returned tt {| Chain := Chain bc;
                       CurrentTransaction := CurrentTransaction bc;
                       Nodes := nodes' |}
      /\ (NoDup (Nodes bc) \/ ns <> [] -> NoDup nodes')
      /\ (forall a : string, In a nodes' <-> In a (Nodes bc) \/ In a ns)
      /\ (ns = [] -> nodes' = Nodes bc).
Proof.
  induction ns as [ | n ns IH]; intro bc.
  - exists (Nodes bc). split; [destruct bc; reflexivity | ].
    split; [intros [H | H]; [exact H | congruence] | ].
    split; [intro a; simpl; tauto | reflexivity].
  - destruct (RegisterNode_result n bc) as [nodes1 [Hret [Hn1 Hin1]]].
    destruct (IH {| Chain := Chain bc;
                    CurrentTransaction := CurrentTransaction bc;
                    Nodes := nodes1 |}) as [nodes' [Hret' [Hn' [Hin' _]]]].
    simpl in *. exists nodes'. split.
    + unfold bind. rewrite Hret. exact Hret'.
    + split; [intros _; apply Hn'; left; exact Hn1 | ].
      split; [ | discriminate].
      intro a. rewrite Hin', Hin1. intuition congruence.
Qed.

(** X3.  The registration handler answers 400 and leaves the ledger as it
    was when the body cannot be read; otherwise it answers 201 with the
    peer list as it stands after registering every posted address: the old
    peers and the posted ones, none twice, the chain and the pending
    transfer untouched.  A body with no address leaves the list as it was. *)
Theorem RegisterNode_handler_spec (bc : BlockChain) :
  RegisterNode_handler None bc = Returned (400, Text "Status Bad Request.") bc
  /\ forall post : Post2,
       exists nodes' : list string,
         RegisterNode_handler (Some post) bc =
           Returned (201, Response2 "新しいノードが追加されました" nodes')
             {| Chain := Chain bc;
                CurrentTransaction := CurrentTransaction bc;
                Nodes := nodes' |}
         /\ (NoDup (Nodes bc) \/ Post2_Nodes post <> [] -> NoDup nodes')
         /\ (forall a : string,
               In a nodes' <-> In a (Nodes bc) \/ In a (Post2_Nodes post))
         /\ (Post2_Nodes post = [] -> nodes' = Nodes bc).
Proof.
  split; [reflexivity | ]. intro post.
  destruct (register_each_returns (Post2_Nodes post) bc) as [nodes' [Hret H]].
  exists nodes'. split; [ | exact H].
  unfold RegisterNode_handler, bind. rewrite Hret. reflexivity.
Qed.

(** ** The shape of digests *)

Lemma land_255_byte (x : Z) : is_byte (Z.land x 255).
Proof.
  unfold is_byte. change 255 with (Z.ones 8). rewrite Z.land_ones by lia.
  apply Z.mod_pos_bound. lia.
Qed.

Lemma be_bytes_length (n : nat) (x : Z) : List.length (Sha256.be_bytes n x) = n.
Proof. induction n as [ | n IH]; simpl; [reflexivity | rewrite IH; reflexivity]. Qed.

Lemma be_bytes_bytes (n : nat) (x : Z) : Forall is_byte (Sha256.be_bytes n x).
Proof.
  induction n as [ | n IH]; cbn [Sha256.be_bytes]; constructor;
    [apply land_255_byte | exact IH].
Qed.

Lemma Sum256_shape (msg : list Z) :
  List.length (Sha256.Sum256 msg) = 32%nat /\ Forall is_byte (Sha256.Sum256 msg).
Proof.
  unfold Sha256.Sum256.
  destruct (Sha256.blocks _ Sha256.init_state (Sha256.pad msg))
    as [[[[[[[a b] c] d] e] f] g] h].
  cbn [List.map List.concat]. split.
  - rewrite !length_app, !be_bytes_length. reflexivity.
  - repeat (apply Forall_app; split; [apply be_bytes_bytes | ]). constructor.
Qed.

Lemma EncodeToString_length (bs : list Z) :
  String.length (Bytes.EncodeToString bs) = (2 * List.length bs)%nat.
Proof. induction bs as [ | b bs IH]; simpl; [reflexivity | rewrite IH; lia]. Qed.

Lemma nibbles (b : Z) :
  is_byte b -> 0 <= Z.shiftr b 4 < 16 /\ 0 <= Z.land b 15 < 16
               /\ b = 16 * Z.shiftr b 4 + Z.land b 15.
Proof.
  unfold is_byte. intro Hb.
  rewrite Z.shiftr_div_pow2 by lia. change 15 with (Z.ones 4).
  rewrite Z.land_ones by lia. change (2 ^ 4) with 16.
  pose proof (Z.mod_pos_bound b 16 ltac:(lia)).
  pose proof (Z.div_mod b 16 ltac:(lia)).
  split; [split; [apply Z.div_pos; lia | apply Z.div_lt_upper_bound; lia] | ].
  split; lia.
Qed.

Lemma nibble_cases (n : Z) :
  0 <= n < 16 ->
  is_lower_hex (Bytes.hexdigit n) = true
  /\ (Ascii.eqb (Bytes.hexdigit n) "0" = true <-> n = 0).
Proof.
  intro H.
  assert (Hall : List.forallb
                   (fun k => is_lower_hex (Bytes.hexdigit k)
                             && Bool.eqb (Ascii.eqb (Bytes.hexdigit k) "0") (k =? 0))
                   (List.map Z.of_nat (List.seq 0 16)) = true)
    by (vm_compute; reflexivity).
  rewrite forallb_forall in Hall.
  assert (Hin : In n (List.map Z.of_nat (List.seq 0 16))).
  { apply in_map_iff. exists (Z.to_nat n). split; [lia | apply in_seq; lia]. }
  specialize (Hall n Hin). apply andb_true_iff in Hall. destruct Hall as [Hhex Heq].
  split; [exact Hhex | ].
  apply Bool.eqb_prop in Heq. rewrite Heq. apply Z.eqb_eq.
Qed.

Lemma EncodeToString_hex (bs : list Z) :
  Forall is_byte bs ->
  List.forallb is_lower_hex (list_ascii_of_string (Bytes.EncodeToString bs)) = true.
Proof.
  induction 1 as [ | b bs Hb _ IH]; [reflexivity | ].
  destruct (nibbles b Hb) as [Hhi [Hlo _]].
  cbn [Bytes.EncodeToString list_ascii_of_string List.forallb].
  rewrite (proj1 (nibble_cases _ Hhi)), (proj1 (nibble_cases _ Hlo)), IH. reflexivity.
Qed.

Lemma Hash_length (block : Block) : String.length (Hash block) = 64%nat.
Proof.
  unfold Hash. rewrite EncodeToString_length.
  rewrite (proj1 (Sum256_shape (Marshal_Block block))). reflexivity.
Qed.

(** X4.  Whatever the block, [Hash] is a string of exactly 64 characters,
    each a digit or a letter from a to f; so a string of another length,
    such as the previous hash of the genesis block, is the hash of no
    block. *)
Theorem Hash_shape (block : Block) :
  String.length (Hash block) = 64%nat
  /\ List.forallb is_lower_hex (list_ascii_of_string (Hash block)) = true
  /\ (forall s : string, String.length s <> 64%nat -> s <> Hash block).
Proof.
  unfold Hash. destruct (Sum256_shape (Marshal_Block block)) as [Hlen Hbytes].
  assert (H64 : String.length
                  (Bytes.EncodeToString (Sha256.Sum256 (Marshal_Block block))) = 64%nat)
    by (rewrite EncodeToString_length, Hlen; reflexivity).
  split; [exact H64 | ].
  split; [apply EncodeToString_hex; exact Hbytes | ].
  intros s Hs ->. apply Hs. exact H64.
Qed.

(** X9.  [validProof] holds exactly when the first two bytes of the SHA-256
    digest of the two decimal texts put together are zero. *)
Theorem validProof_two_zero_bytes (lastProof proof : Z) :
  validProof lastProof proof = true <->
  exists rest : list Z,
    Sha256.Sum256 (Bytes.of_string (GoInt.Itoa lastProof ++ GoInt.Itoa proof)%string)
    = 0 :: 0 :: rest.
Proof.
  unfold validProof. rewrite substring_4_zeros.
  destruct (Sum256_shape
              (Bytes.of_string (GoInt.Itoa lastProof ++ GoInt.Itoa proof)%string))
    as [Hlen Hbytes].
  destruct (Sha256.Sum256 _) as [ | b0 [ | b1 rest]]; try discriminate.
  inversion Hbytes as [ | x l H0 Hrest]; subst.
  inversion Hrest as [ | x l H1 _]; subst.
  destruct (nibbles b0 H0) as [Hh0 [Hl0 E0]].
  destruct (nibbles b1 H1) as [Hh1 [Hl1 E1]].
  cbn [Bytes.EncodeToString list_ascii_of_string List.length List.firstn
       List.forallb Nat.leb andb].
  rewrite !andb_true_r. rewrite !andb_true_iff.
  rewrite (proj2 (nibble_cases _ Hh0)), (proj2 (nibble_cases _ Hl0)),
          (proj2 (nibble_cases _ Hh1)), (proj2 (nibble_cases _ Hl1)).
  split.
  - intros [Ha [Hb [Hc Hd]]]. exists rest. f_equal; [lia | f_equal; lia].
  - intros [rest' H]. injection H as -> -> _. repeat split; reflexivity.
Qed.

(** ** More on the proof-of-work search *)

Lemma ProofOfWork_loop_sound (lastProof : Z) (fuel : nat) :
  forall start q : Z,
    ProofOfWork_loop fuel lastProof start = Some q ->
    validProof lastProof q = true
    /\ forall k : nat, ProofOfWork_loop (fuel + k) lastProof start = Some q.
Proof.
  induction fuel as [ | fuel IH]; intros start q H; [discriminate | ].
  cbn [ProofOfWork_loop Nat.add] in *.
  destruct (validProof lastProof start) eqn:E; cbn [Bool.eqb] in *.
  - injection H as <-. split; [exact E | reflexivity].
  - apply IH. exact H.
Qed.

Lemma ProofOfWork_loop_none (lastProof : Z) (fuel : nat) :
  forall start : Z,
    0 <= start ->
    ProofOfWork_loop fuel lastProof start = None ->
    forall c : Z, start <= c < start + Z.of_nat fuel -> c <= GoInt.max_int ->
      validProof lastProof c = false.
Proof.
  induction fuel as [ | fuel IH]; intros start H0 H c Hc Hmax; [lia | ].
  cbn [ProofOfWork_loop] in H.
  destruct (validProof lastProof start) eqn:E; cbn [Bool.eqb] in H; [discriminate | ].
  destruct (Z.eq_dec c start) as [-> | Hne]; [exact E | ].
  rewrite add_small in H
    by (unfold GoInt.in_range, GoInt.min_int, GoInt.max_int in *; lia).
  apply (IH (start + 1)); try lia. exact H.
Qed.

(** X8.  What [ProofOfWork] returns always satisfies [validProof] and is
    what it returns with any larger bound on the search; when the bound is
    reached, no [int] from 0 up to the bound satisfies the predicate. *)
Theorem ProofOfWork_fuel (fuel : nat) (lastProof : Z) :
  match ProofOfWork fuel lastProof with
  | Some q =>
      validProof lastProof q = true
      /\ forall fuel' : nat, (fuel <= fuel')%nat -> ProofOfWork fuel' lastProof = Some q
  | None =>
      forall c : Z, 0 <= c < Z.of_nat fuel -> c <= GoInt.max_int ->
        validProof lastProof c = false
  end.
Proof.
  unfold ProofOfWork. destruct (ProofOfWork_loop fuel lastProof 0) as [q | ] eqn:E.
  - destruct (ProofOfWork_loop_sound lastProof fuel 0 q E) as [Hv Hk].
    split; [exact Hv | ]. intros fuel' Hf.
    replace fuel' with (fuel + (fuel' - fuel))%nat by lia. apply Hk.
  - intros c Hc Hmax. apply (ProofOfWork_loop_none lastProof fuel 0); try lia. exact E.
Qed.

(** ** More on the validity check *)

Lemma validChain_true_iff (chain : list Block) (s : BlockChain) :
  chain <> [] ->
  (validChain chain s = Returned true s <-> is_valid_chain_spec chain = true).
Proof.
  intro Hne. rewrite validChain_returns by exact Hne. split.
  - intro H. injection H as H. exact H.
  - intros ->. reflexivity.
Qed.

Lemma validChain_false_iff (chain : list Block) (s : BlockChain) :
  chain <> [] ->
  (validChain chain s = Returned false s <-> is_valid_chain_spec chain = false).
Proof.
  intro Hne. rewrite validChain_returns by exact Hne. split.
  - intro H. injection H as H. exact H.
  - intros ->. reflexivity.
Qed.

Lemma snoc_not_nil {A : Type} (l : list A) (a : A) : l ++ [a] <> [].
Proof. intro H. apply app_eq_nil in H. destruct H. discriminate. Qed.

(** X5.  On a ledger whose chain is accepted by [validChain], the chain
    after [NewBlock] is accepted exactly when the explicit previous hash
    was empty or was the hash of the last block; in particular an explicit
    previous hash that is not 64 characters long always gives a chain that
    is rejected. *)
Theorem NewBlock_keeps_valid_iff (bc : BlockChain) (d : Block)
    (now : Z) (ph : string) (proof : Z) :
  validChain (Chain bc) bc = Returned true bc ->
  exists (blk : Block) (bc' : BlockChain),
    NewBlock now ph proof bc = Returned blk bc'
    /\ (validChain (Chain bc') bc' = Returned true bc'
        <-> ph = EmptyString \/ ph = Hash (List.last (Chain bc) d))
    /\ (ph <> EmptyString -> String.length ph <> 64%nat ->
        validChain (Chain bc') bc' = Returned false bc').
Proof.
  intro Hv.
  assert (Hne : Chain bc <> []).
  { intro E. rewrite E, validChain_nil in Hv. discriminate. }
  apply (validChain_true_iff _ _ Hne) in Hv.
  eexists. eexists. split; [apply (NewBlock_returns now ph proof bc d); left; exact Hne | ].
  cbn [Chain].
  destruct (exists_last Hne) as [pre [l Epre]].
  assert (Hspec : is_valid_chain_spec (Chain bc ++ [made_block bc now ph proof d])
                  = string_eqb (PreviousHash (made_block bc now ph proof d)) (Hash l)).
  { rewrite Epre at 1. rewrite is_valid_chain_spec_snoc. rewrite <- Epre, Hv. reflexivity. }
  assert (Hblk : PreviousHash (made_block bc now ph proof d)
                 = if string_eqb ph EmptyString then Hash l else ph).
  { unfold made_block. cbn [PreviousHash]. rewrite Epre, last_last. reflexivity. }
  assert (Hlast : List.last (Chain bc) d = l) by (rewrite Epre; apply last_last).
  rewrite Hblk in Hspec. rewrite Hlast.
  split.
  - rewrite (validChain_true_iff _ _ (snoc_not_nil _ _)), Hspec.
    destruct (string_eqb ph EmptyString) eqn:E.
    + apply string_eqb_eq in E. split; [intros _; left; exact E | intros _].
      apply string_eqb_eq. reflexivity.
    + apply string_eqb_neq in E. rewrite string_eqb_eq. tauto.
  - intros Hph Hlen.
    rewrite (validChain_false_iff _ _ (snoc_not_nil _ _)), Hspec.
    apply string_eqb_neq in Hph. rewrite Hph. apply string_eqb_neq.
    intros ->. apply Hlen. apply Hash_length.
Qed.

Lemma NewBlock_keeps_valid_iff_witness :
  exists (blk : Block) (bc' : BlockChain),
    NewBlock 2 "1" 9 mined_ledger = Returned blk bc'
    /\ (validChain (Chain bc') bc' = Returned true bc'
        <-> "1" = EmptyString \/ "1" = Hash (List.last (Chain mined_ledger) Block_zero))
    /\ ("1" <> EmptyString -> String.length "1" <> 64%nat ->
        validChain (Chain bc') bc' = Returned false bc').
Proof.
  apply (NewBlock_keeps_valid_iff mined_ledger Block_zero 2 "1" 9).
  vm_compute. reflexivity.
Defined.

(** X6.  The last block of a chain is not covered by any link: in a chain
    that [validChain] accepts, the last block can be replaced by any block
    with the same previous hash (another index, time, transfer or proof)
    and the chain is still accepted. *)
Theorem last_block_unprotected (pre : list Block) (b b' : Block) (s : BlockChain) :
  validChain (pre ++ [b]) s = Returned true s ->
  PreviousHash b' = PreviousHash b ->
  validChain (pre ++ [b']) s = Returned true s.
Proof.
  intros Hv Hph.
  apply (validChain_true_iff _ _ (snoc_not_nil _ _)) in Hv.
  apply (validChain_true_iff _ _ (snoc_not_nil _ _)).
  destruct pre as [ | p pre] using rev_ind; [reflexivity | ].
  rewrite is_valid_chain_spec_snoc in *. rewrite Hph. exact Hv.
Qed.

Lemma last_block_unprotected_witness :
  validChain
    [genesis_at_0;
     mkBlock 77 0 (mkTransaction "mallory" "mallory" 1000000) 0
       "a1a8e4854c1d8003f06b76bb6b91f87443baf583b35782c750f240379b058323"]
    BlockChain_zero
  = Returned true BlockChain_zero.
Proof.
  apply (last_block_unprotected [genesis_at_0]
           (mkBlock 2 1 Transaction_zero 7
              "a1a8e4854c1d8003f06b76bb6b91f87443baf583b35782c750f240379b058323")).
  - vm_compute. reflexivity.
  - reflexivity.
Defined.

(** X7.  A chain that [validChain] accepts can be cut anywhere: every
    prefix of it that is not empty is accepted too. *)
Theorem validChain_prefix (c1 c2 : list Block) (s : BlockChain) :
  validChain (c1 ++ c2) s = Returned true s ->
  c1 <> [] ->
  validChain c1 s = Returned true s.
Proof.
  intros Hv Hne.
  assert (Hne' : c1 ++ c2 <> []).
  { intro E. apply app_eq_nil in E. destruct E. contradiction. }
  apply (validChain_true_iff _ _ Hne') in Hv.
  apply (validChain_true_iff _ _ Hne).
  apply (is_valid_chain_spec_true _ Block_zero). intros i Hi.
  pose proof (proj1 (is_valid_chain_spec_true _ Block_zero) Hv i) as H.
  rewrite length_app in H. rewrite !app_nth1 in H by lia. apply H. lia.
Qed.

Lemma validChain_prefix_witness :
  validChain chain_a BlockChain_zero = Returned true BlockChain_zero.
Proof.
  apply (validChain_prefix chain_a
           [mkBlock 3 2 Transaction_zero 9
              (Hash (mkBlock 2 1 Transaction_zero 7 (Hash genesis_at_0)))]).
  - vm_compute. reflexivity.
  - discriminate.
Defined.

(** ** Mining *)

Lemma LastBlock_returns (bc : BlockChain) (d : Block) :
  Chain bc <> [] -> LastBlock bc = Returned (List.last (Chain bc) d) bc.
Proof. intro Hne. unfold LastBlock, bind, get. apply index_last. exact Hne. Qed.

Lemma LastBlock_panics (bc : BlockChain) :
  Chain bc = [] -> LastBlock bc = Panicked IndexOutOfRange bc.
Proof. intro He. unfold LastBlock, bind, get. rewrite He. apply index_nil. Qed.

(** The block [Mine] appends. *)
Lemma Mine_returns (fuel : nat) (now : Z) (id : string) (bc : BlockChain)
    (d : Block) (proof : Z) :
  Chain bc <> [] ->
  ProofOfWork fuel (Proof (List.last (Chain bc) d)) = Some proof ->
  Mine fuel now id bc =
    Returned
      (Some (201, Mined "新しいブロックを採掘しました"
                    (GoInt.add (GoInt.len (Chain bc)) 1) (reward id) proof
                    (Hash (List.last (Chain bc) d))))
      {| Chain := Chain bc
                  ++ [mkBlock (GoInt.add (GoInt.len (Chain bc)) 1) now (reward id)
                        proof (Hash (List.last (Chain bc) d))];
         CurrentTransaction := Transaction_zero;
         Nodes := Nodes bc |}.
Proof.
  intros Hne Hpow. unfold Mine, bind.
  rewrite (LastBlock_returns bc d Hne), Hpow.
  rewrite (NewTransaction_returns "0" id 1 bc d Hne).
  rewrite (NewBlock_returns now EmptyString proof _ d) by (left; exact Hne).
  reflexivity.
Qed.


Lemma ProofOfWork_valid (fuel : nat) (lastProof q : Z) :
  ProofOfWork fuel lastProof = Some q -> validProof lastProof q = true.
Proof. intro H. apply (ProofOfWork_loop_sound lastProof fuel 0 q H). Qed.

(** X10.  When the search succeeds, [Mine] answers 201 and appends one
    block: its index is [len(chain) + 1], its proof is the one found and
    is accepted by [validProof] after the proof of the former last block,
    its previous hash is the hash of that block, and its transfer is the
    reward (sender 0, recipient the node, amount 1) whatever transfer was
    pending; the pending transfer is empty afterwards, and a chain that
    [validChain] accepted is still accepted. *)
Theorem Mine_spec (fuel : nat) (now : Z) (id : string) (bc : BlockChain)
    (d : Block) (proof : Z) :
  Chain bc <> [] ->
  ProofOfWork fuel (Proof (List.last (Chain bc) d)) = Some proof ->
  exists (blk : Block) (bc' : BlockChain),
    Mine fuel now id bc =
      Returned (Some (201, Mined "新しいブロックを採掘しました"
                             (Index blk) (Transactions blk) (Proof blk)
                             (PreviousHash blk))) bc'
    /\ bc' = {| Chain := Chain bc ++ [blk];
                CurrentTransaction := Transaction_zero;
                Nodes := Nodes bc |}
    /\ blk = mkBlock (GoInt.add (GoInt.len (Chain bc)) 1) now
               (mkTransaction "0" id 1) proof (Hash (List.last (Chain bc) d))
    /\ validProof (Proof (List.last (Chain bc) d)) (Proof blk) = true
    /\ (validChain (Chain bc) bc = Returned true bc ->
        validChain (Chain bc') bc' = Returned true bc').
Proof.
  intros Hne Hpow.
  exists (mkBlock (GoInt.add (GoInt.len (Chain bc)) 1) now
            (mkTransaction "0" id 1) proof (Hash (List.last (Chain bc) d))).
  eexists.
  split; [rewrite (Mine_returns fuel now id bc d proof Hne Hpow); reflexivity | ].
  split; [reflexivity | ]. split; [reflexivity | ].
  split; [exact (ProofOfWork_valid _ _ _ Hpow) | ].
  intro Hv. apply (validChain_true_iff _ _ Hne) in Hv. cbn [Chain].
  apply (validChain_true_iff _ _ (snoc_not_nil _ _)).
  destruct (exists_last Hne) as [pre [l Epre]].
  rewrite Epre in *. rewrite is_valid_chain_spec_snoc, Hv, last_last.
  cbn [PreviousHash andb]. apply string_eqb_eq. reflexivity.
Qed.

Lemma Mine_spec_witness :
  exists (blk : Block) (bc' : BlockChain),
    Mine 6 3 "node" quick_ledger =
      Returned (Some (201, Mined "新しいブロックを採掘しました"
                             (Index blk) (Transactions blk) (Proof blk)
                             (PreviousHash blk))) bc'
    /\ bc' = {| Chain := Chain quick_ledger ++ [blk];
                CurrentTransaction := Transaction_zero;
                Nodes := Nodes quick_ledger |}
    /\ blk = mkBlock (GoInt.add (GoInt.len (Chain quick_ledger)) 1) 3
               (mkTransaction "0" "node" 1) 5
               (Hash (List.last (Chain quick_ledger) Block_zero))
    /\ validProof (Proof (List.last (Chain quick_ledger) Block_zero)) (Proof blk) = true
    /\ (validChain (Chain quick_ledger) quick_ledger = Returned true quick_ledger ->
        validChain (Chain bc') bc' = Returned true bc').
Proof.
  apply (Mine_spec 6 3 "node" quick_ledger Block_zero 5).
  - discriminate.
  - vm_compute. reflexivity.
Defined.

(** X11.  On a ledger whose chain is empty (the zero value, before [init])
    [LastBlock], [NewBlock] without an explicit previous hash and [Mine]
    panic with an index out of range and leave the ledger as it was;
    [NewTransaction] and the transfer handler panic too, but only after
    they have put the posted record in the pending slot; [NewBlock] with an
    explicit previous hash returns and makes the first block, of index 1;
    [FullChainGET] answers with an empty chain of length 0. *)
Theorem empty_chain_behaviour (pending : Transaction) (nodes : list string)
    (now proof : Z) (fuel : nat) (id ph : string) (c : ascii) (post : Post) :
  let bc := {| Chain := []; CurrentTransaction := pending; Nodes := nodes |} in
  LastBlock bc = Panicked IndexOutOfRange bc
  /\ NewBlock now EmptyString proof bc = Panicked IndexOutOfRange bc
  /\ Mine fuel now id bc = Panicked IndexOutOfRange bc
  /\ NewTransactionPost (Some post) bc =
       Panicked IndexOutOfRange
         {| Chain := [];
            CurrentTransaction :=
              mkTransaction (Post_Sender post) (Post_Recipient post) (Post_Amount post);
            Nodes := nodes |}
  /\ NewBlock now (String c ph) proof bc =
       Returned (mkBlock 1 now pending proof (String c ph))
         {| Chain := [mkBlock 1 now pending proof (String c ph)];
            CurrentTransaction := Transaction_zero;
            Nodes := nodes |}
  /\ FullChainGET bc = Returned (200, Chain_of (mkFullChain [] 0)) bc.
Proof.
  intro bc. split; [apply LastBlock_panics; reflexivity | ].
  split; [reflexivity | ].
  split; [unfold Mine, bind; rewrite LastBlock_panics by reflexivity; reflexivity | ].
  split; [ | split; reflexivity].
  unfold NewTransactionPost, bind.
  rewrite NewTransaction_panics by reflexivity. reflexivity.
Qed.

(** ** The ledger of a node that serves requests *)







Lemma FullChainGET_returns (bc : BlockChain) :
  FullChainGET bc =
    Returned (200, Chain_of (mkFullChain (Chain bc) (GoInt.len (Chain bc)))) bc.
Proof. reflexivity. Qed.









(** X15.  A transfer posted to the node is lost at the next mining: on a
    ledger whose last block has its position as index, the transfer
    handler answers 201 and names the index of the next block, the posted
    record becomes the pending transfer; [Mine] then makes the block of
    that index, but with the reward in it, and leaves the pending slot
    empty. *)
Theorem posted_transfer_lost (fuel : nat) (now : Z) (id : string) (bc : BlockChain)
    (d : Block) (proof : Z) (post : Post) :
  Chain bc <> [] ->
  Index (List.last (Chain bc) d) = GoInt.len (Chain bc) ->
  GoInt.len (Chain bc) < GoInt.max_int ->
  ProofOfWork fuel (Proof (List.last (Chain bc) d)) = Some proof ->
  exists (bc1 bc2 : BlockChain) (blk : Block),
    NewTransactionPost (Some post) bc =
      Returned (201, Text ("トランザクションはブロック"
                           ++ GoInt.Itoa (GoInt.len (Chain bc) + 1)
                           ++ "に追加されました")%string) bc1
    /\ CurrentTransaction bc1 =
         mkTransaction (Post_Sender post) (Post_Recipient post) (Post_Amount post)
    /\ Mine fuel now id bc1 =
         Returned (Some (201, Mined "新しいブロックを採掘しました"
                                (GoInt.len (Chain bc) + 1) (mkTransaction "0" id 1)
                                proof (Hash (List.last (Chain bc) d)))) bc2
    /\ Chain bc2 = Chain bc ++ [blk]
    /\ Index blk = GoInt.len (Chain bc) + 1
    /\ Transactions blk = mkTransaction "0" id 1
    /\ CurrentTransaction bc2 = Transaction_zero.
Proof.
  intros Hne Hidx Hlen Hpow.
  assert (Hadd : GoInt.add (GoInt.len (Chain bc)) 1 = GoInt.len (Chain bc) + 1).
  { apply add_small. pose proof (len_nonneg (Chain bc)).
    unfold GoInt.in_range, GoInt.min_int, GoInt.max_int in *. lia. }
  eexists. eexists. eexists. split.
  - unfold NewTransactionPost, bind.
    rewrite (NewTransaction_returns _ _ _ bc d Hne), Hidx, Hadd. reflexivity.
  - split; [reflexivity | ]. split.
    + rewrite (Mine_returns fuel now id _ d proof) by assumption.
      cbn [Chain Nodes]. rewrite Hadd. reflexivity.
    + cbn [Chain CurrentTransaction].
      split; [reflexivity | ]. split; [reflexivity | ]. split; reflexivity.
Qed.

Lemma posted_transfer_lost_witness :
  exists (bc1 bc2 : BlockChain) (blk : Block),
    NewTransactionPost (Some (mkPost "carol" "dave" 9)) quick_ledger =
      Returned (201, Text "トランザクションはブロック3に追加されました") bc1
    /\ CurrentTransaction bc1 = mkTransaction "carol" "dave" 9
    /\ Mine 6 3 "node" bc1 =
         Returned (Some (201, Mined "新しいブロックを採掘しました"
                                3 (mkTransaction "0" "node" 1)
                                5 (Hash (List.last (Chain quick_ledger) Block_zero)))) bc2
    /\ Chain bc2 = Chain quick_ledger ++ [blk]
    /\ Index blk = 3
    /\ Transactions blk = mkTransaction "0" "node" 1
    /\ CurrentTransaction bc2 = Transaction_zero.
Proof.
  apply (posted_transfer_lost 6 3 "node" quick_ledger Block_zero 5
           (mkPost "carol" "dave" 9)).
  - discriminate.
  - reflexivity.
  - reflexivity.
  - vm_compute. reflexivity.
Defined.

(** ** More on consensus *)

Lemma resolve_step_state (r : Response) (acc : Z * list Block) (s : BlockChain) :
  match resolve_step r acc s with
  | Returned _ s' => s' = s
  | Panicked _ s' => s' = s
  end.
Proof.
  destruct acc as [maxLength newChain].
  destruct r as [ | code [p | ]]; cbn [resolve_step]; try reflexivity.
  - destruct (negb (code =? 200)); [reflexivity | ].
    destruct (maxLength <? FullChain_Length p); [ | reflexivity].
    unfold bind. destruct (FullChain_Chain p) as [ | b rest].
    + rewrite validChain_nil. reflexivity.
    + rewrite validChain_cons. destruct (validChain_loop b rest); reflexivity.
  - destruct (negb (code =? 200)); reflexivity.
Qed.

Lemma resolve_loop_state (rs : list Response) :
  forall (acc : Z * list Block) (s : BlockChain),
    match resolve_loop rs acc s with
    | Returned _ s' => s' = s
    | Panicked _ s' => s' = s
    end.
Proof.
  induction rs as [ | r rs IH]; intros acc s; [reflexivity | ].
  cbn [resolve_loop]. unfold bind.
  pose proof (resolve_step_state r acc s) as H.
  destruct (resolve_step r acc s) as [acc1 s1 | p s1]; subst s1; [apply IH | reflexivity].
Qed.

Lemma resolve_step_failed (r : Response) (acc : Z * list Block) (s : BlockChain) :
  failed r -> resolve_step r acc s = Panicked PeerFailure s.
Proof.
  destruct acc as [maxLength newChain].
  destruct r as [ | code body]; cbn [resolve_step failed]; [reflexivity | ].
  intros [Hc | ->].
  - apply Z.eqb_neq in Hc. rewrite Hc. reflexivity.
  - destruct (negb (code =? 200)); reflexivity.
Qed.

(** X16.  Consensus is all or nothing: whenever [resolveConflicts] panics
    the ledger is exactly as before the call, even if a peer scanned
    earlier had offered a longer valid chain; and one peer that does not
    answer, answers with a status other than 200 or sends a body that does
    not decode is enough to make the call panic, wherever it stands among
    the peers. *)
Theorem resolveConflicts_all_or_nothing (http_Get : string -> Response)
    (bc : BlockChain) :
  (forall (p : panic) (s' : BlockChain),
      resolveConflicts http_Get bc = Panicked p s' -> s' = bc)
  /\ (forall (pre post : list Response) (r : Response),
        requests http_Get bc = pre ++ r :: post ->
        failed r ->
        exists p : panic, resolveConflicts http_Get bc = Panicked p bc).
Proof.
  split.
  - intros p s'. unfold resolveConflicts, bind, get. fold (requests http_Get bc).
    pose proof (resolve_loop_state (requests http_Get bc) (GoInt.len (Chain bc), []) bc) as H.
    destruct (resolve_loop (requests http_Get bc) (GoInt.len (Chain bc), []) bc)
      as [acc s1 | p1 s1]; subst s1.
    + destruct (negb (GoInt.len (snd acc) =? 0)); discriminate.
    + intro E. injection E as _ <-. reflexivity.
  - intros pre post r Hreq Hf.
    unfold resolveConflicts, bind, get. fold (requests http_Get bc).
    rewrite Hreq, resolve_loop_app. unfold bind.
    pose proof (resolve_loop_state pre (GoInt.len (Chain bc), []) bc) as H.
    destruct (resolve_loop pre (GoInt.len (Chain bc), []) bc) as [acc s1 | p1 s1];
      subst s1.
    + cbn [resolve_loop]. unfold bind. rewrite (resolve_step_failed r acc bc Hf).
      exists PeerFailure. reflexivity.
    + exists p1. reflexivity.
Qed.

Lemma adopt_cases (best : Z * option (list Block)) (x : FullChain) :
  (adopt best x = best
   /\ (is_valid_chain_spec (FullChain_Chain x) = true -> FullChain_Length x <= fst best))
  \/ (adopt best x = (FullChain_Length x, Some (FullChain_Chain x))
      /\ fst best < FullChain_Length x
      /\ is_valid_chain_spec (FullChain_Chain x) = true).
Proof.
  unfold adopt. destruct (fst best <? FullChain_Length x) eqn:E1.
  - apply Z.ltb_lt in E1.
    destruct (is_valid_chain_spec (FullChain_Chain x)) eqn:E2; cbn [andb].
    + right. repeat split. exact E1.
    + left. split; [reflexivity | discriminate].
  - apply Z.ltb_ge in E1. cbn [andb]. left. split; [reflexivity | intros _; exact E1].
Qed.

(** The scan on peers that report the length of what they send. *)
Lemma scan_honest (peers : list FullChain) :
  forall best : Z * option (list Block),
    (forall p, In p peers -> FullChain_Length p = GoInt.len (FullChain_Chain p)) ->
    (forall c, snd best = Some c -> GoInt.len c = fst best) ->
    fst best <= fst (List.fold_left adopt peers best)
    /\ (forall p, In p peers -> is_valid_chain_spec (FullChain_Chain p) = true ->
          GoInt.len (FullChain_Chain p) <= fst (List.fold_left adopt peers best))
    /\ (forall c, snd (List.fold_left adopt peers best) = Some c ->
          GoInt.len c = fst (List.fold_left adopt peers best))
    /\ (List.fold_left adopt peers best = best
        \/ exists p, In p peers
             /\ snd (List.fold_left adopt peers best) = Some (FullChain_Chain p)
             /\ is_valid_chain_spec (FullChain_Chain p) = true
             /\ fst best < fst (List.fold_left adopt peers best)).
Proof.
  induction peers as [ | x peers IH]; intros best Hlen Hinv.
  - cbn [List.fold_left]. split; [lia | ]. split; [intros p [] | ].
    split; [exact Hinv | left; reflexivity].
  - cbn [List.fold_left].
    assert (Hx : FullChain_Length x = GoInt.len (FullChain_Chain x))
      by (apply Hlen; left; reflexivity).
    destruct (adopt_cases best x) as [[Ea Hle] | [Ea [Hlt Hvx]]]; rewrite Ea.
    + destruct (IH best (fun p Hp => Hlen p (or_intror Hp)) Hinv)
        as [Hmono [Hmax [Hinv' Hor]]].
      split; [exact Hmono | ]. split; [ | split; [exact Hinv' | ]].
      * intros p [<- | Hp] Hv; [ | apply Hmax; assumption].
        specialize (Hle Hv). lia.
      * destruct Hor as [E | [p [Hp H]]]; [left; exact E | ].
        right. exists p. split; [right; exact Hp | exact H].
    + destruct (IH (FullChain_Length x, Some (FullChain_Chain x))
                  (fun p Hp => Hlen p (or_intror Hp)))
        as [Hmono [Hmax [Hinv' Hor]]].
      { cbn [fst snd]. intros c E. injection E as <-. symmetry. exact Hx. }
      cbn [fst snd] in *.
      split; [lia | ]. split; [ | split; [exact Hinv' | ]].
      * intros p [<- | Hp] Hv; [lia | apply Hmax; assumption].
      * right. destruct Hor as [E | [p [Hp [Hs [Hv Hlt2]]]]].
        -- exists x. rewrite E. cbn [fst snd]. split; [left; reflexivity | ].
           split; [reflexivity | ]. split; [exact Hvx | exact Hlt].
        -- exists p. split; [right; exact Hp | ].
           split; [exact Hs | ]. split; [exact Hv | lia].
Qed.

Lemma honest_shape (p : FullChain) :
  honest p ->
  FullChain_Length p = GoInt.len (FullChain_Chain p) /\ FullChain_Chain p <> [].
Proof.
  intros [s [H Hne]]. rewrite FullChainGET_returns in H.
  injection H as <-. split; [reflexivity | exact Hne].
Qed.

(** X17.  Among nodes that answer with [FullChainGET], consensus picks the
    longest valid chain: when every peer's answer is what [FullChainGET]
    gives on a ledger with a chain, the [Consensus] handler answers 200,
    leaves the pending transfer and the peers alone, and the local chain
    afterwards is never shorter than before and at least as long as every
    peer chain that [validChain] accepts.  Either no such peer chain was
    longer and the chain is unchanged, or the chain is now a strictly
    longer peer chain that [validChain] accepts. *)
Theorem Consensus_longest_valid (http_Get : string -> Response) (bc : BlockChain)
    (peers : list FullChain) :
  requests http_Get bc = answers peers ->
  Forall honest peers ->
  exists (reply : Reply) (bc' : BlockChain),
    Consensus http_Get bc = Returned reply bc'
    /\ CurrentTransaction bc' = CurrentTransaction bc
    /\ Nodes bc' = Nodes bc
    /\ GoInt.len (Chain bc) <= GoInt.len (Chain bc')
    /\ (forall p, In p peers ->
          validChain (FullChain_Chain p) bc = Returned true bc ->
          GoInt.len (FullChain_Chain p) <= GoInt.len (Chain bc'))
    /\ ((Chain bc' = Chain bc
         /\ reply = (200, Confirmed "チェーンが確認されました" (Chain bc)))
        \/ (GoInt.len (Chain bc) < GoInt.len (Chain bc')
            /\ (exists p, In p peers /\ Chain bc' = FullChain_Chain p
                          /\ validChain (FullChain_Chain p) bc = Returned true bc)
            /\ reply = (200, Replaced "チェーンが置き換えられました" (Chain bc')))).
Proof.
  intros Hreq Hall.
  assert (Hshape : forall p, In p peers ->
            FullChain_Length p = GoInt.len (FullChain_Chain p)
            /\ FullChain_Chain p <> []).
  { intros p Hp. apply honest_shape. rewrite Forall_forall in Hall. apply Hall. exact Hp. }
  assert (Hne : Forall (fun p => FullChain_Chain p <> []) peers).
  { apply Forall_forall. intros p Hp. apply (Hshape p Hp). }
  destruct (scan_honest peers (GoInt.len (Chain bc), None)
              (fun p Hp => proj1 (Hshape p Hp)) ltac:(discriminate))
    as [Hmono [Hmax [Hinv Hor]]].
  cbn [fst snd] in *.
  assert (Hvalid : forall p, In p peers ->
            validChain (FullChain_Chain p) bc = Returned true bc ->
            is_valid_chain_spec (FullChain_Chain p) = true).
  { intros p Hp Hv. apply (validChain_true_iff _ bc (proj2 (Hshape p Hp))). exact Hv. }
  unfold Consensus, bind, get.
  rewrite (resolveConflicts_scan http_Get bc peers Hreq Hne).
  unfold resolve_spec, scan_spec.
  destruct (snd (List.fold_left adopt peers (GoInt.len (Chain bc), None)))
    as [c | ] eqn:Ec; cbn [fst snd Chain].
  - destruct Hor as [E | [p [Hp [Hs [Hv Hlt]]]]]; [rewrite E in Ec; discriminate | ].
    injection Hs as ->.
    pose proof (Hinv _ eq_refl) as Hc.
    eexists. eexists. split; [reflexivity | ]. cbn [Chain CurrentTransaction Nodes].
    split; [reflexivity | ]. split; [reflexivity | ]. split; [lia | ].
    split; [intros q Hq Hvq; rewrite Hc; apply Hmax; [exact Hq | apply Hvalid; assumption] | ].
    right. split; [lia | ]. split; [ | reflexivity].
    exists p. split; [exact Hp | ]. split; [reflexivity | ].
    apply (validChain_true_iff _ bc (proj2 (Hshape p Hp))). exact Hv.
  - destruct Hor as [E | [p [Hp [Hs _]]]]; [ | discriminate].
    rewrite E in Hmax. cbn [fst] in Hmax.
    eexists. eexists. split; [reflexivity | ]. cbn [Chain CurrentTransaction Nodes].
    split; [reflexivity | ]. split; [reflexivity | ]. split; [lia | ].
    split; [intros q Hq Hvq; apply Hmax; [exact Hq | apply Hvalid; assumption] | ].
    left. split; reflexivity.
Qed.

Lemma Consensus_longest_valid_witness :
  exists (reply : Reply) (bc' : BlockChain),
    Consensus (fun url => Got 200 (Some (mkFullChain chain_a 2)))
      {| Chain := [genesis_at_0]; CurrentTransaction := Transaction_zero;
         Nodes := ["a"] |}
    = Returned reply bc'
    /\ GoInt.len (Chain bc') = 2.
Proof.
  destruct (Consensus_longest_valid
              (fun url => Got 200 (Some (mkFullChain chain_a 2)))
              {| Chain := [genesis_at_0]; CurrentTransaction := Transaction_zero;
                 Nodes := ["a"] |}
              [mkFullChain chain_a 2])
    as [reply [bc' [Hret [_ [_ [Hge [Hmax Hor]]]]]]].
  - reflexivity.
  - constructor; [ | constructor]. exists mined_ledger.
    split; [reflexivity | discriminate].
  - exists reply, bc'. split; [exact Hret | ].
    destruct Hor as [[Hsame _] | [_ [[p [[<- | []] [Hc _]]] _]]].
    + exfalso.
      assert (H2 : GoInt.len (FullChain_Chain (mkFullChain chain_a 2))
                   <= GoInt.len (Chain bc')).
      { apply Hmax; [left; reflexivity | vm_compute; reflexivity]. }
      rewrite Hsame in H2. vm_compute in H2. apply H2. reflexivity.
    + rewrite Hc. reflexivity.
Defined.

(** X18.  The index [NewTransaction] announces is computed from the index
    field of the last block, the index [NewBlock] gives from the length of
    the chain: the block made next has the announced index exactly when
    the last block's index equals the length of the chain (which
    [validChain] does not require of a chain taken from a peer). *)
Theorem announced_index_iff (sender recipient : string) (amount now : Z)
    (ph : string) (proof : Z) (bc : BlockChain) (d : Block) :
  Chain bc <> [] ->
  GoInt.in_range (Index (List.last (Chain bc) d) + 1) ->
  GoInt.len (Chain bc) < GoInt.max_int ->
  exists (n : Z) (bc1 : BlockChain) (blk : Block) (bc2 : BlockChain),
    NewTransaction sender recipient amount bc = Returned n bc1
    /\ NewBlock now ph proof bc1 = Returned blk bc2
    /\ n = Index (List.last (Chain bc) d) + 1
    /\ Index blk = GoInt.len (Chain bc) + 1
    /\ (Index blk = n <-> Index (List.last (Chain bc) d) = GoInt.len (Chain bc)).
Proof.
  intros Hne Hr Hlen.
  eexists. eexists. eexists. eexists.
  split; [apply (NewTransaction_returns _ _ _ bc d Hne) | ].
  split; [apply (NewBlock_returns now ph proof _ d); left; exact Hne | ].
  assert (Hadd : GoInt.add (GoInt.len (Chain bc)) 1 = GoInt.len (Chain bc) + 1).
  { apply add_small. pose proof (len_nonneg (Chain bc)).
    unfold GoInt.in_range, GoInt.min_int, GoInt.max_int in *. lia. }
  rewrite (add_small _ _ Hr). unfold made_block. cbn [Index Chain]. rewrite Hadd.
  split; [reflexivity | ]. split; [reflexivity | ]. lia.
Qed.

Lemma announced_index_iff_witness :
  exists (n : Z) (bc1 : BlockChain) (blk : Block) (bc2 : BlockChain),
    NewTransaction "carol" "dave" 9
      {| Chain := [mkBlock 41 0 Transaction_zero 100 "1"];
         CurrentTransaction := Transaction_zero; Nodes := [] |}
    = Returned n bc1
    /\ NewBlock 1 "x" 7 bc1 = Returned blk bc2
    /\ n = 42
    /\ Index blk = 2.
Proof.
  destruct (announced_index_iff "carol" "dave" 9 1 "x" 7
              {| Chain := [mkBlock 41 0 Transaction_zero 100 "1"];
                 CurrentTransaction := Transaction_zero; Nodes := [] |}
              Block_zero)
    as [n [bc1 [blk [bc2 [H1 [H2 [H3 [H4 _]]]]]]]].
  - discriminate.
  - vm_compute. split; discriminate.
  - reflexivity.
  - exists n, bc1, blk, bc2.
    split; [exact H1 | ]. split; [exact H2 | ]. split; [exact H3 | exact H4].
Defined.

(** X19.  Among honest peers a tie goes to the peer listed first: when
    [resolveConflicts] replaces the chain, the chain taken is that of a
    peer such that every valid chain of a peer listed before it is strictly
    shorter and every valid chain of a peer listed after it is no longer. *)
Theorem first_longest_wins (http_Get : string -> Response) (bc bc' : BlockChain)
    (peers : list FullChain) :
  requests http_Get bc = answers peers ->
  Forall honest peers ->
  resolveConflicts http_Get bc = Returned true bc' ->
  exists pre p post,
    peers = pre ++ p :: post
    /\ Chain bc' = FullChain_Chain p
    /\ is_valid_chain_spec (FullChain_Chain p) = true
    /\ GoInt.len (Chain bc) < GoInt.len (FullChain_Chain p)
    /\ (forall q, In q pre -> is_valid_chain_spec (FullChain_Chain q) = true ->
          GoInt.len (FullChain_Chain q) < GoInt.len (FullChain_Chain p))
    /\ (forall q, In q post -> is_valid_chain_spec (FullChain_Chain q) = true ->
          GoInt.len (FullChain_Chain q) <= GoInt.len (FullChain_Chain p)).
Proof.
  intros Hreq Hall Hret.
  assert (Hshape : forall p, In p peers ->
            FullChain_Length p = GoInt.len (FullChain_Chain p)
            /\ FullChain_Chain p <> []).
  { intros p Hp. apply honest_shape. rewrite Forall_forall in Hall. apply Hall. exact Hp. }
  assert (Hne : Forall (fun p => FullChain_Chain p <> []) peers).
  { apply Forall_forall. intros p Hp. apply (Hshape p Hp). }
  rewrite (resolveConflicts_scan http_Get bc peers Hreq Hne) in Hret.
  unfold resolve_spec, scan_spec in Hret.
  destruct (snd (List.fold_left adopt peers (GoInt.len (Chain bc), None)))
    as [c | ] eqn:Ec; cbn [fst snd] in Hret; [ | discriminate].
  injection Hret as <-. cbn [Chain].
  destruct (scan_some _ _ _ Ec) as [Hs | [pre [p [post [Hpeers [Hc [Hlt Hv]]]]]]];
    [discriminate | ].
  subst c.
  assert (Hp : In p peers) by (rewrite Hpeers; apply in_elt).
  destruct (Hshape p Hp) as [Hlenp _].
  destruct (scan_honest pre (GoInt.len (Chain bc), None)) as [Hmono [Hmax _]].
  { intros q Hq. apply Hshape. rewrite Hpeers. apply in_or_app. left. exact Hq. }
  { discriminate. }
  destruct (scan_honest peers (GoInt.len (Chain bc), None)
              (fun q Hq => proj1 (Hshape q Hq)) ltac:(discriminate))
    as [_ [Hmax' [Hinv' _]]].
  cbn [fst snd] in *.
  exists pre, p, post. split; [exact Hpeers | ]. split; [reflexivity | ].
  split; [exact Hv | ]. split; [lia | ]. split.
  - intros q Hq Hvq. specialize (Hmax q Hq Hvq). lia.
  - intros q Hq Hvq. rewrite (Hinv' _ Ec). apply Hmax'; [ | exact Hvq].
    rewrite Hpeers. apply in_or_app. right. right. exact Hq.
Qed.

Lemma first_longest_wins_witness :
  exists pre p post,
    [mkFullChain chain_a 2; mkFullChain chain_a 2] = pre ++ p :: post
    /\ chain_a = FullChain_Chain p
    /\ (forall q, In q pre -> is_valid_chain_spec (FullChain_Chain q) = true ->
          GoInt.len (FullChain_Chain q) < GoInt.len (FullChain_Chain p)).
Proof.
  destruct (first_longest_wins
              (fun url => Got 200 (Some (mkFullChain chain_a 2)))
              local_1
              {| Chain := chain_a; CurrentTransaction := Transaction_zero;
                 Nodes := ["a"; "b"] |}
              [mkFullChain chain_a 2; mkFullChain chain_a 2])
    as [pre [p [post [H1 [H2 [_ [_ [H3 _]]]]]]]].
  - reflexivity.
  - repeat constructor; exists mined_ledger; (split; [reflexivity | discriminate]).
  - vm_compute. reflexivity.
  - exists pre, p, post. split; [exact H1 | ]. split; [exact H2 | exact H3].
Defined.
